(** * LiquiVerde: shopping optimisation engine and its front-end state

    A shallow embedding of the LiquiVerde platform.  The page state of the
    React front end ([ShoppingList.jsx], [Scanner.jsx]) is embedded from
    the JavaScript; the four algorithms (sustainability scorer, knapsack
    optimiser, substitute finder, route optimiser) are embedded from the
    pseudocode of [ALGORITHMS.md], the Python modules it documents not
    being part of the sources at hand.

    Numbers.  Prices handed to the knapsack are integer cents ([Z]); every
    other quantity that the Python code keeps in a float is an exact
    rational ([Q]) here, so the theorems speak about the formulas and not
    about IEEE rounding.  Equality on [Q] is [==]. *)

From Stdlib Require Import ZArith QArith Qround Qminmax Qabs.
From Stdlib Require Import List Permutation Sorted String Bool Arith Lia Lqa.
Import ListNotations.

(* ================================================================== *)
(** * Part I: the embedding *)
(* ================================================================== *)

(** ** Errors

    Python signals failure by raising; a call either returns a value or
    raises.  The small monad below threads that through the embedding. *)

Inductive error : Set :=
| InvalidInput
| ZeroDivisionError.

Inductive result (A : Type) : Type :=
| Ok (a : A)
| Raise (e : error).

Arguments Ok {A} a.
Arguments Raise {A} e.

Definition bind {A B : Type} (c : result A) (k : A -> result B) : result B :=
  match c with
  | Ok a => k a
  | Raise e => Raise e
  end.

Notation "x <- c ;; k" := (bind c (fun x => k))
  (at level 61, c at next level, right associativity).

(** A float division: Python raises [ZeroDivisionError] on a zero divisor. *)
Definition checked_div (a b : Q) : result Q :=
  if Qeq_bool b 0 then Raise ZeroDivisionError else Ok (a / b)%Q.

(** [min(hi, max(lo, x))], the clamp used throughout the scorers. *)
Definition clamp (lo hi x : Q) : Q := Qmin hi (Qmax lo x).

(** [x < y] on floats, as a test. *)
Definition Qlt_bool (x y : Q) : bool := negb (Qle_bool y x).

(* ------------------------------------------------------------------ *)
(** ** Front end: the shopping-list page ([ShoppingList.jsx]) *)
(* ------------------------------------------------------------------ *)

Module ShoppingList.

(** What [parseInt] hands to [updateQuantity]: an integer, or [NaN] when
    the input box is empty. *)
Inductive jsint : Set :=
| Int (z : Z)
| NaN.

(** [Math.max(1, quantity)]: [NaN] is contagious. *)
Definition math_max_1 (q : jsint) : jsint :=
  match q with
  | Int z => Int (Z.max 1 z)
  | NaN => NaN
  end.

(** A product as listed by the API (the fields the page reads). *)
Record product : Type := mkProduct {
  id : string;
  name : string;
  price : Q
}.

(** An element of [selectedProducts]: the product's own fields spread
    into a fresh object, plus [quantity] and [priority]. *)
Record entry : Type := mkEntry {
  entry_id : string;
  entry_name : string;
  entry_price : Q;
  quantity : jsint;
  priority : Z
}.

(** [{ ...product, quantity: 1, priority: 3 }] *)
Definition spread (p : product) : entry :=
  mkEntry (id p) (name p) (price p) (Int 1) 3.

(** [p.id === x] on strings. *)
Definition same_id (x : string) (e : entry) : bool :=
  String.eqb (entry_id e) x.

Definition addProduct (p : product) (selectedProducts : list entry)
  : list entry :=
  match find (same_id (id p)) selectedProducts with
  | None => selectedProducts ++ [spread p]
  | Some _ => selectedProducts
  end.

Definition removeProduct (productId : string)
           (selectedProducts : list entry) : list entry :=
  filter (fun e => negb (same_id productId e)) selectedProducts.

Definition updateQuantity (productId : string) (q : jsint)
           (selectedProducts : list entry) : list entry :=
  map (fun e =>
         if same_id productId e
         then mkEntry (entry_id e) (entry_name e) (entry_price e)
                      (math_max_1 q) (priority e)
         else e)
      selectedProducts.

(** The three handlers that write [selectedProducts]. *)
Inductive action : Type :=
| AddProduct (p : product)
| RemoveProduct (productId : string)
| UpdateQuantity (productId : string) (q : jsint).

Definition step (s : list entry) (a : action) : list entry :=
  match a with
  | AddProduct p => addProduct p s
  | RemoveProduct i => removeProduct i s
  | UpdateQuantity i q => updateQuantity i q s
  end.

(** [useState([])], then the handlers in the order the user fires them. *)
Definition initial : list entry := [].

Definition run (acts : list action) : list entry :=
  fold_left step acts initial.

(** The states the page can be in. *)
Inductive reachable : list entry -> Prop :=
| reach_initial : reachable initial
| reach_step s a : reachable s -> reachable (step s a).

Definition ids (s : list entry) : list string := map entry_id s.

Section Doubles.

(** The numbers of JavaScript are doubles, with infinities and [NaN].
    The page only adds and multiplies them, so their arithmetic is a
    parameter: the type of numbers, [NaN], the [0] the sum starts from,
    the double of an integer, [+] and [*]. *)
Variable number : Type.
Variable nan : number.
Variable zero : number.
Variable of_int : Z -> number.
Variable add mul : number -> number -> number.

(** The number that [*] makes of [p.price], whatever the API sent. *)
Variable price_value : entry -> number.

(** The number that [*] makes of [p.quantity]. *)
Definition quantity_value (q : jsint) : number :=
  match q with
  | Int z => of_int z
  | NaN => nan
  end.

(** [selectedProducts.reduce((sum, p) => sum + (p.price * p.quantity), 0)] *)
Definition totalCost (selectedProducts : list entry) : number :=
  fold_left
    (fun sum p =>
       add sum (mul (price_value p) (quantity_value (quantity p))))
    selectedProducts zero.

End Doubles.

Arguments quantity_value {number} nan of_int q.
Arguments totalCost {number} nan zero of_int add mul price_value
  selectedProducts.

(** An arithmetic to try the page on: exact rationals, with [None] for
    [NaN]. *)
Definition exact_add (a b : option Q) : option Q :=
  match a, b with
  | Some x, Some y => Some (x + y)%Q
  | _, _ => None
  end.

Definition exact_mul (a b : option Q) : option Q :=
  match a, b with
  | Some x, Some y => Some (x * y)%Q
  | _, _ => None
  end.

Definition exact_total (selectedProducts : list entry) : option Q :=
  totalCost None (Some 0%Q) (fun z => Some (inject_Z z))
            exact_add exact_mul (fun p => Some (entry_price p))
            selectedProducts.

(** Sample input: a list whose only entry has an emptied quantity box. *)
Definition emptied_box : list entry :=
  [ mkEntry "milk" "Leche" 990 NaN 3 ].

(** The body that [optimizeList] posts to [quick-optimize]. *)
Record request : Type := mkRequest {
  product_ids : list string;
  max_budget : jsint;
  prioritize_sustainability : bool
}.

(** [optimizeList]: nothing is sent for an empty list; otherwise the ids
    of the selected products go out with the budget of the page. *)
Definition optimizeList (selectedProducts : list entry) (maxBudget : jsint)
  : option request :=
  match selectedProducts with
  | [] => None
  | _ => Some (mkRequest (map entry_id selectedProducts) maxBudget true)
  end.

(** Every quantity that is a number is at least 1. *)
Definition quantity_ok (e : entry) : Prop :=
  match quantity e with
  | Int z => (1 <= z)%Z
  | NaN => True
  end.

End ShoppingList.

(* ------------------------------------------------------------------ *)
(** ** Front end: the scanner page ([Scanner.jsx]) *)
(* ------------------------------------------------------------------ *)

Module Scanner.

(** A JavaScript number as the score arrives from JSON: a finite value,
    or [NaN] (on which every comparison is false). *)
Inductive number : Type :=
| Finite (q : Q)
| NotANumber.

(** [score >= k] *)
Definition ge (score : number) (k : Q) : bool :=
  match score with
  | Finite q => Qle_bool k q
  | NotANumber => false
  end.

Definition getSustainabilityColor (score : number) : string :=
  if ge score 70 then "text-green-600 bg-green-100"
  else if ge score 50 then "text-yellow-600 bg-yellow-100"
  else "text-red-600 bg-red-100".

Definition getSustainabilityLabel (score : number) : string :=
  if ge score 70 then "Excelente"
  else if ge score 50 then "Bueno"
  else "Mejorable".

(** A JavaScript string, as its UTF-16 code units. *)
Definition jsstring : Type := list N.

(** The code units that [trim] strips: the white space and the line
    terminators of ECMAScript. *)
Definition is_white_space (c : N) : bool :=
  (N.eqb c 9 || N.eqb c 10 || N.eqb c 11 || N.eqb c 12 || N.eqb c 13
   || N.eqb c 32 || N.eqb c 160 || N.eqb c 5760
   || (N.leb 8192 c && N.leb c 8202)
   || N.eqb c 8232 || N.eqb c 8233 || N.eqb c 8239 || N.eqb c 8287
   || N.eqb c 12288 || N.eqb c 65279)%bool.

(** [!s.trim()]: nothing is left once the white space is stripped. *)
Definition blank (s : jsstring) : bool := forallb is_white_space s.

(** A value as [||] and [&&] see it: a string, some other value that
    counts as false ([undefined], [null], [0], [NaN], [false]), or some
    other value that counts as true (a number, an array, an object). *)
Inductive jsvalue : Type :=
| Text (s : string)
| Falsy
| Truthy.

Definition truthy (v : jsvalue) : bool :=
  match v with
  | Text s => negb (String.eqb s "")
  | Falsy => false
  | Truthy => true
  end.

(** How an awaited call ends: with the data of the response, or with an
    error whose [response?.data?.detail] is any value, [undefined]
    included. *)
Inductive outcome (A : Type) : Type :=
| Resolved (data : A)
| Rejected (detail : jsvalue).

Arguments Resolved {A} data.
Arguments Rejected {A} detail.

Section Page.

(** A product as the API returns it; [None] stands for [null]. *)
Variable P : Type.

Record page : Type := mkPage {
  barcode : jsstring;
  searchQuery : jsstring;
  loading : bool;
  product : option P;
  error : option jsvalue;
  searchResults : list P
}.

(** [detail || 'Producto no encontrado'] *)
Definition scan_error (detail : jsvalue) : jsvalue :=
  if truthy detail then detail else Text "Producto no encontrado".

Definition selectProduct (st : page) (selectedProduct : P) : page :=
  mkPage (barcode st) [] (loading st) (Some selectedProduct) (error st) [].

(** [handleScan] up to its [await]: nothing happens on a blank barcode;
    otherwise the page starts loading with no error and no product. *)
Definition handleScan_request (st : page) : option page :=
  if blank (barcode st) then None
  else Some (mkPage (barcode st) (searchQuery st) true None None
                    (searchResults st)).

(** What the user can do while the scan is awaited.  Both submit buttons
    are disabled, but the two boxes and the sample barcodes still write
    [barcode] and [searchQuery], and the results of an earlier search,
    which a scan does not clear, can still be picked. *)
Inductive interaction : Type :=
| TypeBarcode (s : jsstring)
| TypeQuery (s : jsstring)
| Pick (i : nat).

Definition interact (st : page) (a : interaction) : page :=
  match a with
  | TypeBarcode s =>
      mkPage s (searchQuery st) (loading st) (product st) (error st)
             (searchResults st)
  | TypeQuery s =>
      mkPage (barcode st) s (loading st) (product st) (error st)
             (searchResults st)
  | Pick i =>
      match nth_error (searchResults st) i with
      | Some result => selectProduct st result
      | None => st
      end
  end.

(** [handleScan] from the answer to the end of its [finally]. *)
Definition handleScan_response (st : page) (response : outcome (option P))
  : page :=
  match response with
  | Resolved data =>
      mkPage (barcode st) (searchQuery st) false data (error st)
             (searchResults st)
  | Rejected detail =>
      mkPage (barcode st) (searchQuery st) false (product st)
             (Some (scan_error detail)) (searchResults st)
  end.

(** A whole [handleScan]: the request, what the user does meanwhile, and
    the answer. *)
Definition handleScan (st : page) (meanwhile : list interaction)
           (response : outcome (option P)) : page :=
  match handleScan_request st with
  | None => st
  | Some requested =>
      handleScan_response (fold_left interact meanwhile requested) response
  end.

(** Whether the user picked a result. *)
Definition is_pick (a : interaction) : bool :=
  match a with
  | Pick _ => true
  | _ => false
  end.

(** [handleSearch], from the submit to the end of its [finally]. *)
Definition handleSearch (st : page) (response : outcome (list P)) : page :=
  if blank (searchQuery st) then st
  else
    match response with
    | Resolved data =>
        mkPage (barcode st) (searchQuery st) false (product st)
               (match data with
                | [] => Some (Text "No se encontraron productos")
                | _ => None
                end)
               data
    | Rejected _ =>
        mkPage (barcode st) (searchQuery st) false (product st)
               (Some (Text "Error al buscar productos")) []
    end.

End Page.

Arguments barcode {P} _.
Arguments searchQuery {P} _.
Arguments loading {P} _.
Arguments product {P} _.
Arguments error {P} _.
Arguments searchResults {P} _.
Arguments interact {P} st a.
Arguments handleScan_request {P} st.
Arguments handleScan_response {P} st response.
Arguments handleScan {P} st meanwhile response.
Arguments handleSearch {P} st response.
Arguments selectProduct {P} st selectedProduct.

(** Sample input: a page with a query typed in; products are numbered. *)
Definition sample_page : page nat :=
  mkPage nat [] [108; 101; 99; 104; 101]%N false None None [].

End Scanner.

(* ------------------------------------------------------------------ *)
(** ** Sustainability scorer ([ALGORITHMS.md], section 2) *)
(* ------------------------------------------------------------------ *)

Module Scorer.

Local Open Scope Q_scope.

Inductive origin : Set :=
| LocalOrigin
| National
| SouthAmerica
| NorthAmerica
| Europe
| Asia.

Record product : Type := mkProduct {
  price : Q;
  weight_kg : Q;
  category : string;
  product_origin : origin;
  labels : list string;
  proteins : option Q;
  fiber : option Q;
  purchased_quantity : Q
}.

Record equivalences : Type := mkEquivalences {
  km_driven : Q;
  trees_needed : Q;
  days_of_energy : Q
}.

Record SustainabilityScore : Type := mkScore {
  economic_score : Q;
  environmental_score : Q;
  social_score : Q;
  overall_score : Q;
  carbon_footprint_kg : Q;
  impact : equivalences
}.

(** ["organic" in labels]; the labels are spelled as the specification
    spells them. *)
Definition has_label (l : string) (p : product) : bool :=
  existsb (String.eqb l) (labels p).

Definition is_local (p : product) : bool :=
  match product_origin p with LocalOrigin => true | _ => false end.

Definition is_regional (p : product) : bool :=
  match product_origin p with SouthAmerica => true | _ => false end.

(** The five brackets of the price/quality factor. *)
Definition price_adjustment (ratio : Q) : Q :=
  if Qlt_bool ratio 0.8 then 30
  else if Qlt_bool ratio 1.0 then 20
  else if Qlt_bool ratio 1.2 then 10
  else if Qlt_bool ratio 1.5 then -10
  else -20.

Definition exceeds (v : option Q) (threshold : Q) : bool :=
  match v with
  | Some x => Qlt_bool threshold x
  | None => false
  end.

(** High in protein (>10g) or fibre (>5g): +10. *)
Definition nutrition_bonus (p : product) : Q :=
  if exceeds (proteins p) 10 || exceeds (fiber p) 5 then 10 else 0.

(** Kilograms of CO2 per kilogram, by category ([CARBON_FACTORS]). *)
Definition CARBON_FACTORS : list (string * Q) :=
  [ ("meat"%string, 27.0); ("poultry"%string, 6.9); ("dairy"%string, 13.5);
    ("fish"%string, 6.0); ("vegetables"%string, 2.0);
    ("fruits"%string, 1.1); ("grains"%string, 2.5);
    ("legumes"%string, 0.9) ].

Fixpoint dict_get (d : list (string * Q)) (k : string) (default : Q) : Q :=
  match d with
  | [] => default
  | (k', v) :: d' => if String.eqb k' k then v else dict_get d' k default
  end.

(** Transport distance in km, by origin. *)
Definition transport_distance (o : origin) : Q :=
  match o with
  | LocalOrigin => 50
  | National => 500
  | SouthAmerica => 2000
  | NorthAmerica => 5000
  | Europe => 10000
  | Asia => 12000
  end.

(** Score delta of a footprint in kg. *)
Definition footprint_delta (carbon : Q) : Q :=
  if Qlt_bool carbon 1 then 30
  else if Qlt_bool carbon 3 then 15
  else if Qlt_bool carbon 5 then 5
  else if Qlt_bool carbon 10 then -10
  else -25.

(** Modelled from the spec: the clamp of an axis to [0,100] after all
    adjustments; [ALGORITHMS.md] gives it only as the range (0-100) of
    each score. *)
Definition clamp_axis (x : Q) : Q := clamp 0 100 x.

Definition social_score_of (p : product) : Q :=
  clamp_axis
    (50
     + (if has_label "fair-trade" p then 25 else 0)
     + (if has_label "b-corp" p then 20 else 0)
     + (if is_local p then 20 else 0)
     + (if is_regional p then 10 else 0)
     + (if has_label "small-producer" p then 15 else 0)
     + (if has_label "cooperative" p then 15 else 0)).

Definition equivalences_of (carbon_kg : Q) : equivalences :=
  mkEquivalences (carbon_kg * 4.5) (carbon_kg / 21) (carbon_kg / 6).

Section WithTables.

(** Two constants of [sustainability_scoring.py] that the documentation
    does not give: the emission factor of a category outside
    [CARBON_FACTORS], and the bulk bonus earned per unit bought. *)
Variable default_carbon_factor : Q.
Variable bulk_rate : Q.

(** Bulk purchase: proportional to the quantity, at most +10. *)
Definition bulk_bonus (p : product) : Q :=
  Qmin 10 (bulk_rate * purchased_quantity p).

Definition transport_carbon (p : product) : Q :=
  (transport_distance (product_origin p) / 1000) * 0.1 * weight_kg p.

Definition raw_footprint (p : product) : Q :=
  dict_get CARBON_FACTORS (category p) default_carbon_factor * weight_kg p
  + transport_carbon p.

(** Organic takes 10% off the footprint, local origin 30%. *)
Definition carbon_footprint (p : product) : Q :=
  raw_footprint p
  * (if has_label "organic" p then 0.9 else 1)
  * (if is_local p then 0.7 else 1).

Definition environmental_score_of (p : product) : Q :=
  clamp_axis
    (50
     + (if has_label "organic" p then 15 else 0)
     + (if has_label "eco-friendly" p then 10 else 0)
     + (if is_local p then 20 else 0)
     + footprint_delta (carbon_footprint p)).

(** [ratio = precio_producto / precio_promedio_categoria], then the
    bracket of the ratio.  The division stands as the document has it,
    with no test of the divisor. *)
Definition ratio_adjustment (p : product) (categoryAverage : Q) : result Q :=
  ratio <- checked_div (price p) categoryAverage ;;
  Ok (price_adjustment ratio).

Definition economic_score_of (p : product) (categoryAverage : Q)
  : result Q :=
  adj <- ratio_adjustment p categoryAverage ;;
  Ok (clamp_axis (50 + adj + nutrition_bonus p + bulk_bonus p)).

(** Modelled from the spec: the input validation of the scorer, absent
    from [ALGORITHMS.md].  A negative price, weight or category average is
    [InvalidInput]. *)
Definition validate_product (p : product) (categoryAverage : Q) : result unit :=
  if Qlt_bool (price p) 0 || Qlt_bool (weight_kg p) 0
     || Qlt_bool categoryAverage 0
  then Raise InvalidInput
  else Ok tt.

Definition score (p : product) (categoryAverage : Q)
  : result SustainabilityScore :=
  _ <- validate_product p categoryAverage ;;
  economic <- economic_score_of p categoryAverage ;;
  let environmental := environmental_score_of p in
  let social := social_score_of p in
  Ok (mkScore economic environmental social
        (economic * 0.33 + environmental * 0.34 + social * 0.33)
        (carbon_footprint p)
        (equivalences_of (carbon_footprint p))).

End WithTables.

(** Sample input: a kilogram of dairy at the category average. *)
Definition sample_dairy : product :=
  mkProduct 1000 1 "dairy" National [] None None 1.

(** The same product at another price, and at another weight. *)
Definition with_price (p : product) (price' : Q) : product :=
  mkProduct price' (weight_kg p) (category p) (product_origin p) (labels p)
            (proteins p) (fiber p) (purchased_quantity p).

Definition with_weight (p : product) (weight' : Q) : product :=
  mkProduct (price p) weight' (category p) (product_origin p) (labels p)
            (proteins p) (fiber p) (purchased_quantity p).

End Scorer.

(* ------------------------------------------------------------------ *)
(** ** Multi-objective knapsack ([ALGORITHMS.md], section 1) *)
(* ------------------------------------------------------------------ *)

Module Knapsack.

Local Open Scope Z_scope.

(** A product as the optimiser sees it: the price in cents, and the three
    normalised signals that make up its value. *)
Record product : Type := mkProduct {
  price : Z;
  sustainability_score : Q;
  savings_score : Q;
  priority : Q
}.

(** A product together with the quantity the caller asks for
    ([products[i]], [desired_quantities[i]]). *)
Record item : Type := mkItem {
  item_product : product;
  desired : Z
}.

Record weights : Type := mkWeights {
  sustainability_weight : Q;
  savings_weight : Q;
  priority_weight : Q
}.

Record stats : Type := mkStats {
  total_cost : Z;
  budget_remaining : Z;
  items_selected : nat;
  total_items : Z
}.

(** [value = (sustainability_score * w1) + (savings_score * w2)
             + (priority * w3)] *)
Definition value (w : weights) (p : product) : Q :=
  (sustainability_score p * sustainability_weight w
   + savings_score p * savings_weight w
   + priority p * priority_weight w)%Q.

(** [costo(i, q)] *)
Definition cost (it : item) (q : Z) : Z := price (item_product it) * q.

(** [range(1, d + 1)] *)
Definition quantities (d : Z) : list Z :=
  map Z.of_nat (seq 1 (Z.to_nat d)).

(** Cost and objective value of a selection, products and quantities
    taken side by side. *)
Fixpoint selection_cost (items : list item) (qs : list Z) : Z :=
  match items, qs with
  | it :: items', q :: qs' => cost it q + selection_cost items' qs'
  | _, _ => 0
  end.

Section Table.

Variable w : weights.

Definition item_value (it : item) (q : Z) : Q :=
  (value w (item_product it) * inject_Z q)%Q.

Fixpoint selection_value (items : list item) (qs : list Z) : Q :=
  match items, qs with
  | it :: items', q :: qs' =>
      (item_value it q + selection_value items' qs')%Q
  | _, _ => 0%Q
  end.

(** One step of the innermost loop: quantity [q] of product [it], on top
    of the row [prev] of the products before it, replaces the running
    best of the cell (value, quantity) when it fits in the budget [b] and
    is strictly better. *)
Definition improve (prev : Z -> Q) (it : item) (b : Z)
           (best : Q * Z) (q : Z) : Q * Z :=
  if cost it q <=? b then
    let candidate := (prev (b - cost it q)%Z + item_value it q)%Q in
    if Qlt_le_dec (fst best) candidate then (candidate, q) else best
  else best.

(** What a cell holds: the cell above with quantity 0, or a quantity
    between 1 and the desired one that fits, on top of the row before. *)
Definition cell_ok (prev : Z -> Q) (it : item) (b : Z) (c : Q * Z) : Prop :=
  c = (prev b, 0)
  \/ (1 <= snd c <= desired it
      /\ cost it (snd c) <= b
      /\ fst c
         = (prev (b - cost it (snd c))%Z + item_value it (snd c))%Q).

(** [dp[i][b]], with the quantity that achieved it.  The first argument
    lists the products 1..i, product i first: row i is computed from
    row i-1, the row of the tail.  Row 0 is all zeros, and a cell starts
    from the cell above it (quantity 0). *)
Fixpoint dp (upto : list item) (b : Z) : Q * Z :=
  match upto with
  | [] => (0%Q, 0)
  | it :: earlier =>
      fold_left (improve (fun b' => fst (dp earlier b')) it b)
                (quantities (desired it))
                (fst (dp earlier b), 0)
  end.

(** The table walked in reverse: the quantity recorded for product i at
    the budget left, then product i-1 with that much less budget. *)
Fixpoint backtrack (upto : list item) (b : Z) : list Z :=
  match upto with
  | [] => []
  | it :: earlier =>
      let q := snd (dp upto b) in
      q :: backtrack earlier (b - cost it q)
  end.

(** The quantities in the order of the products. *)
Definition solve (items : list item) (budget : Z) : list Z :=
  rev (backtrack (rev items) budget).

Definition stats_of (items : list item) (budget : Z) (qs : list Z) : stats :=
  mkStats (selection_cost items qs)
          (budget - selection_cost items qs)
          (List.length (filter (fun q => 0 <? q) qs))
          (fold_right Z.add 0 qs).

End Table.

(** The objective weights a caller may pass. *)
Definition nonnegative (w : weights) : Prop :=
  (0 <= sustainability_weight w)%Q
  /\ (0 <= savings_weight w)%Q
  /\ (0 <= priority_weight w)%Q.

(** Modelled from the spec: the input check of [knapsack.py], absent from
    [ALGORITHMS.md].  A negative budget or a negative objective weight is
    [InvalidInput]. *)
Definition validate_input (w : weights) (budget : Z) : result unit :=
  if (budget <? 0)
     || Qlt_bool (sustainability_weight w) 0
     || Qlt_bool (savings_weight w) 0
     || Qlt_bool (priority_weight w) 0
  then Raise InvalidInput
  else Ok tt.

(** Modelled from the spec: the entry point [optimize] of [knapsack.py].
    After the input check the table is solved, and the quantities are
    returned with their statistics. *)
Definition optimize (w : weights) (items : list item) (budget : Z)
  : result (list Z * stats) :=
  _ <- validate_input w budget ;;
  let qs := solve w items budget in
  Ok (qs, stats_of items budget qs).

(** Sample inputs: an even weighting and two products. *)
Definition sample_weights : weights := mkWeights 0.3 0.4 0.3.

Definition sample_items : list item :=
  [ mkItem (mkProduct 300 0.8 0.2 1) 2;
    mkItem (mkProduct 500 0.5 0.5 0.5) 1 ].

End Knapsack.

(* ------------------------------------------------------------------ *)
(** ** Substitute finder ([ALGORITHMS.md], section 3) *)
(* ------------------------------------------------------------------ *)

Module Substitution.

Local Open Scope Q_scope.

Record product : Type := mkProduct {
  name : string;
  price : Q;
  overall_score : Q;
  category : string;
  energy_kcal : option Q;
  proteins : option Q;
  carbs : option Q;
  fats : option Q;
  labels : list string;
  origin : string
}.

Record SubstitutionResult : Type := mkResult {
  original : product;
  substitute : product;
  score : Q;
  sustainability_improvement : Q;
  savings : Q;
  reason : list string
}.

Definition improvement (product candidate : product) : Q :=
  overall_score candidate - overall_score product.

(** Modelled from the spec: the two filters.  [ALGORITHMS.md] compares a
    [price_increase] that it does not define; the spec discards a
    candidate whose price is above price * (1 + maxPriceIncreasePct), or
    whose improvement is below the minimum. *)
Definition passes (max_price_increase min_sustainability_improvement : Q)
           (product candidate : product) : bool :=
  negb (Qlt_bool (price product * (1 + max_price_increase))
                 (price candidate))
  && negb (Qlt_bool (improvement product candidate)
                    min_sustainability_improvement).

(** [((original_price - candidate_price) / original_price) * 100] *)
Definition savings_percent (product candidate : product) : result Q :=
  r <- checked_div (price product - price candidate) (price product) ;;
  Ok (r * 100).

Definition related : list (string * list string) :=
  [ ("meat", ["poultry"; "fish"]);
    ("dairy", ["cheese"; "yogurt"; "milk"]);
    ("vegetables", ["fruits"; "legumes"]) ]%string.

Fixpoint related_to (table : list (string * list string)) (c : string)
  : list string :=
  match table with
  | [] => []
  | (k, v) :: table' => if String.eqb k c then v else related_to table' c
  end.

Definition category_match (c1 c2 : string) : Q :=
  if String.eqb c1 c2 then 100
  else if existsb (String.eqb c2) (related_to related c1)
          || existsb (String.eqb c1) (related_to related c2)
  then 70
  else 30.

(** One nutrient: skipped when it is missing on either side. *)
Definition metric_similarity (v1 v2 : option Q) : result (list Q) :=
  match v1, v2 with
  | Some val1, Some val2 =>
      diff <- checked_div (Qabs (val1 - val2)) (Qmax val1 val2) ;;
      Ok [(1 - diff) * 100]
  | _, _ => Ok []
  end.

Definition Qsum (l : list Q) : Q := fold_right Qplus 0 l.

(** [avg_similarity = sum(similarities) / len(similarities)]: with no
    nutrient to compare the list is empty and the division raises. *)
Definition nutritional_similarity (product candidate : product)
  : result Q :=
  s1 <- metric_similarity (energy_kcal product) (energy_kcal candidate) ;;
  s2 <- metric_similarity (proteins product) (proteins candidate) ;;
  s3 <- metric_similarity (carbs product) (carbs candidate) ;;
  s4 <- metric_similarity (fats product) (fats candidate) ;;
  let similarities := s1 ++ s2 ++ s3 ++ s4 in
  checked_div (Qsum similarities)
              (inject_Z (Z.of_nat (List.length similarities))).

Definition reasons (improvement savings_percent : Q) (candidate : product)
  : list string :=
  (if Qlt_bool 20 improvement
   then ["Mejora significativa en sostenibilidad"%string] else [])
  ++ (if Qlt_bool 15 savings_percent
      then ["Ahorro considerable"%string] else [])
  ++ (if existsb (String.eqb "organic") (labels candidate)
      then ["Producto orgánico"%string] else [])
  ++ (if String.eqb (origin candidate) "local"
      then ["Producción local"%string] else []).

(** A candidate that passed the filters, scored on the four components. *)
Definition evaluate (product candidate : product)
  : result SubstitutionResult :=
  let improvement := improvement product candidate in
  pct <- savings_percent product candidate ;;
  nutrition <- nutritional_similarity product candidate ;;
  Ok (mkResult product candidate
        (clamp 0 100 improvement * 0.35
         + clamp 0 100 (pct * 5) * 0.30
         + category_match (category product) (category candidate) * 0.20
         + nutrition * 0.15)
        improvement
        (price product - price candidate)
        (reasons improvement pct candidate)).

Fixpoint evaluate_all (product : product)
         (candidates : list Substitution.product)
  : result (list SubstitutionResult) :=
  match candidates with
  | [] => Ok []
  | c :: rest =>
      r <- evaluate product c ;;
      rs <- evaluate_all product rest ;;
      Ok (r :: rs)
  end.

(** Modelled from the spec: the order of the results.  [a] may stand
    before [b] when its score is higher, or when the scores are equal and
    its candidate is not dearer. *)
Definition before (a b : SubstitutionResult) : bool :=
  Qlt_bool (score b) (score a)
  || (Qeq_bool (score a) (score b)
      && Qle_bool (price (substitute a)) (price (substitute b))).

(** A stable sort, as Python's [list.sort] is: an element goes in front
    of the first one it may stand before, so equal keys keep the order in
    which they came. *)
Fixpoint insert (r : SubstitutionResult) (sorted : list SubstitutionResult)
  : list SubstitutionResult :=
  match sorted with
  | [] => [r]
  | x :: sorted' =>
      if before r x then r :: sorted else x :: insert r sorted'
  end.

Definition sort (l : list SubstitutionResult) : list SubstitutionResult :=
  fold_right insert [] l.

Definition find_substitutes (product : product)
           (candidate_pool : list Substitution.product)
           (max_price_increase min_sustainability_improvement : Q)
  : result (list SubstitutionResult) :=
  scored <- evaluate_all product
              (filter (passes max_price_increase
                              min_sustainability_improvement product)
                      candidate_pool) ;;
  Ok (sort scored).

(** The order in which results are listed, as a relation. *)
Definition ranks_before (a b : SubstitutionResult) : Prop :=
  score b < score a
  \/ (score a == score b
      /\ price (substitute a) <= price (substitute b)).

(** What the filters let through. *)
Definition admissible (max_price_increase min_sustainability_improvement : Q)
           (product candidate : product) : Prop :=
  price candidate <= price product * (1 + max_price_increase)
  /\ min_sustainability_improvement
     <= overall_score candidate - overall_score product.

(** Sample inputs: a yogurt and three candidate replacements. *)
Definition sample_yogurt : product :=
  mkProduct "yogurt" 1000 50 "dairy" (Some 60) (Some 4) None None [] "import".

Definition sample_pool : list product :=
  [ mkProduct "organic yogurt" 1050 70 "dairy" (Some 65) (Some 5) None None
              ["organic"%string] "local";
    mkProduct "pudding" 1500 90 "snacks" None None None None [] "import";
    mkProduct "plain milk" 800 58 "milk" (Some 50) (Some 3) None None
              [] "local" ].

(** The nutrient values present are positive (so none of the maxima that
    the similarity divides by is zero). *)
Definition positive (v : option Q) : Prop :=
  match v with
  | Some x => 0 < x
  | None => True
  end.

Definition positive_nutrients (p : product) : Prop :=
  positive (energy_kcal p) /\ positive (proteins p)
  /\ positive (carbs p) /\ positive (fats p).

(** A value on the scale of the components. *)
Definition in_percent (x : Q) : Prop := 0 <= x <= 100.

(** The nutrient values present are not negative. *)
Definition not_negative (v : option Q) : Prop :=
  match v with
  | Some x => 0 <= x
  | None => True
  end.

Definition nonnegative_nutrients (p : product) : Prop :=
  not_negative (energy_kcal p) /\ not_negative (proteins p)
  /\ not_negative (carbs p) /\ not_negative (fats p).

(** A nutrient given on both sides, and two products with at least one
    such nutrient. *)
Definition both_present (v1 v2 : option Q) : bool :=
  match v1, v2 with
  | Some _, Some _ => true
  | _, _ => false
  end.

Definition comparable (p c : product) : Prop :=
  both_present (energy_kcal p) (energy_kcal c)
  || both_present (proteins p) (proteins c)
  || both_present (carbs p) (carbs c)
  || both_present (fats p) (fats c) = true.

(** The candidates of the sample pool that carry nutrient data. *)
Definition sample_dairy_pool : list product :=
  [ nth 0 sample_pool sample_yogurt; nth 2 sample_pool sample_yogurt ].

(** The restrictions that [batch_substitute] leaves at their defaults. *)
Definition max_price_increase : Q := 0.10.
Definition min_sustainability_improvement : Q := 5.0.

(** [x['sustainability_improvement'] + (x['savings'] * 10)] *)
Definition combined_impact (x : SubstitutionResult) : Q :=
  sustainability_improvement x + savings x * 10.

(** [sort(key=..., reverse=True)]: descending, equal keys in the order in
    which they came. *)
Fixpoint insert_by_impact (x : SubstitutionResult)
         (sorted : list SubstitutionResult) : list SubstitutionResult :=
  match sorted with
  | [] => [x]
  | y :: sorted' =>
      if Qlt_bool (combined_impact x) (combined_impact y)
      then y :: insert_by_impact x sorted'
      else x :: sorted
  end.

(** The loop of [batch_substitute]: the best substitute of each product
    that has one. *)
Fixpoint best_substitutes (products candidate_pool : list product)
  : result (list SubstitutionResult) :=
  match products with
  | [] => Ok []
  | p :: rest =>
      substitutes <- find_substitutes p candidate_pool max_price_increase
                       min_sustainability_improvement ;;
      others <- best_substitutes rest candidate_pool ;;
      Ok (match substitutes with
          | best :: _ => best :: others
          | [] => others
          end)
  end.

Definition batch_substitute (products candidate_pool : list product)
  : result (list SubstitutionResult) :=
  substitutions <- best_substitutes products candidate_pool ;;
  Ok (fold_right insert_by_impact [] substitutions).

(** A result that heads the list of substitutes of its own product. *)
Definition is_best_of (candidate_pool : list product)
           (r : SubstitutionResult) : Prop :=
  exists others,
    find_substitutes (original r) candidate_pool max_price_increase
                     min_sustainability_improvement
    = Ok (r :: others).

(** Whether the search finds a substitute for a product at all. *)
Definition has_substitute (candidate_pool : list product) (p : product)
  : bool :=
  match find_substitutes p candidate_pool max_price_increase
                         min_sustainability_improvement with
  | Ok (_ :: _) => true
  | _ => false
  end.

(** The order of the batch: higher combined impact first. *)
Definition more_impact (a b : SubstitutionResult) : Prop :=
  combined_impact b <= combined_impact a.

End Substitution.

(* ------------------------------------------------------------------ *)
(** ** Route optimiser ([ALGORITHMS.md], section 4) *)
(* ------------------------------------------------------------------ *)

Module Route.

Local Open Scope Q_scope.

Record store : Type := mkStore {
  store_name : string;
  latitude : Q;
  longitude : Q
}.

Record RouteResult : Type := mkRoute {
  route : list store;
  total_distance : Q;
  estimated_time : Q;
  order : list nat;
  travel_time : Q;
  shopping_time : Q
}.

(** The 2-opt loop stops after this many passes. *)
Definition max_iterations : nat := 100.

Section WithDistance.

(** [haversine(lat1, lon1, lat2, lon2)] is built from sines, cosines and
    an arc tangent of floats; the optimiser only adds and compares its
    results, so it is a parameter here. *)
Variable haversine : Q -> Q -> Q -> Q -> Q.

Variable stores : list store.
Variable start_location : Q * Q.

Definition distance (a b : Q * Q) : Q :=
  haversine (fst a) (snd a) (fst b) (snd b).

(** The coordinates of [stores[i]].  Every index the optimiser builds is
    below [len(stores)]. *)
Definition location (i : nat) : Q * Q :=
  match nth_error stores i with
  | Some s => (latitude s, longitude s)
  | None => start_location
  end.

(** [min(unvisited, key=...)]: the first index of least key. *)
Fixpoint argmin (key : nat -> Q) (best : nat) (rest : list nat) : nat :=
  match rest with
  | [] => best
  | i :: rest' =>
      if Qlt_le_dec (key i) (key best)
      then argmin key i rest'
      else argmin key best rest'
  end.

(** The [while unvisited] loop; it runs once per store. *)
Fixpoint visit (rounds : nat) (current : Q * Q) (unvisited : list nat)
         (route : list nat) (total_distance : Q) : list nat * Q * (Q * Q) :=
  match rounds, unvisited with
  | S rounds', first :: others =>
      let nearest :=
        argmin (fun i => distance current (location i)) first others in
      visit rounds' (location nearest)
            (remove Nat.eq_dec nearest unvisited)
            (route ++ [nearest])
            (total_distance + distance current (location nearest))
  | _, _ => (route, total_distance, current)
  end.

Definition nearest_neighbor : list nat * Q :=
  let n := List.length stores in
  let '(route, total_distance, current) :=
    visit n start_location (seq 0 n) [] 0 in
  (route, total_distance + distance current start_location).

(** From the start through the stores of the route and back. *)
Fixpoint path_length (current : Q * Q) (route : list nat) : Q :=
  match route with
  | [] => distance current start_location
  | i :: route' =>
      distance current (location i) + path_length (location i) route'
  end.

Definition calculate_distance (route : list nat) : Q :=
  path_length start_location route.

(** [route[:i] + route[i:j+1][::-1] + route[j+1:]] *)
Definition reverse_segment (route : list nat) (i j : nat) : list nat :=
  firstn i route
  ++ rev (firstn (j + 1 - i) (skipn i route))
  ++ skipn (j + 1) route.

(** [for i in range(1, n - 1): for j in range(i + 1, n)] *)
Definition segments (n : nat) : list (nat * nat) :=
  flat_map (fun i => map (pair i) (seq (i + 1) (n - (i + 1))))
           (seq 1 (n - 1 - 1)).

(** The body of the inner loop, on (best_route, best_distance, improved). *)
Definition try_segment (route : list nat) (st : list nat * Q * bool)
           (ij : nat * nat) : list nat * Q * bool :=
  let '(best_route, best_distance, improved) := st in
  let new_route := reverse_segment route (fst ij) (snd ij) in
  let new_distance := calculate_distance new_route in
  if Qlt_le_dec new_distance best_distance
  then (new_route, new_distance, true)
  else st.

Definition pass (route best_route : list nat) (best_distance : Q)
  : list nat * Q * bool :=
  fold_left (try_segment route) (segments (List.length route))
            (best_route, best_distance, false).

Fixpoint two_opt_loop (passes_left : nat) (route best_route : list nat)
         (best_distance : Q) : list nat * Q :=
  match passes_left with
  | O => (best_route, best_distance)
  | S passes_left' =>
      let '(best_route', best_distance', improved) :=
        pass route best_route best_distance in
      if improved
      then two_opt_loop passes_left' best_route' best_route' best_distance'
      else (best_route', best_distance')
  end.

Definition two_opt (route : list nat) : list nat * Q :=
  two_opt_loop max_iterations route route (calculate_distance route).

Definition estimate_time (distance_km : Q) (num_stores : nat) : Q * Q * Q :=
  let travel_time := (distance_km / 30) * 60 in
  let shopping_time := inject_Z (Z.of_nat num_stores) * 15 in
  (travel_time + shopping_time, travel_time, shopping_time).

(** [[stores[i] for i in order]] *)
Definition stores_in (order : list nat) : list store :=
  flat_map (fun i => match nth_error stores i with
                     | Some s => [s]
                     | None => []
                     end) order.

(** Modelled from the spec: [optimize_route] itself, of which
    [ALGORITHMS.md] shows only the result.  Nearest neighbour builds the
    route, 2-opt refines it, and the time is estimated from the refined
    distance. *)
Definition optimize_route : RouteResult :=
  let '(initial, _) := nearest_neighbor in
  let '(best_route, best_distance) := two_opt initial in
  let '(total_time, travel, shopping) :=
    estimate_time best_distance (List.length stores) in
  mkRoute (stores_in best_route) best_distance total_time best_route
          travel shopping.

(** A route in which every stop is, among the stops still to come, one
    nearest to the position before it, and the lowest-numbered such. *)
Fixpoint greedy (current : Q * Q) (route : list nat) : Prop :=
  match route with
  | [] => True
  | i :: route' =>
      (forall j, In j route' ->
                 distance current (location i)
                 <= distance current (location j)
                 /\ ((j < i)%nat ->
                     distance current (location i)
                     < distance current (location j)))
      /\ greedy (location i) route'
  end.

End WithDistance.

(** Sample input: four stores on a street grid, with the distance walked
    along the grid standing in for the haversine distance. *)
Definition grid_distance (lat1 lon1 lat2 lon2 : Q) : Q :=
  Qabs (lat1 - lat2) + Qabs (lon1 - lon2).

Definition sample_stores : list store :=
  [ mkStore "A" 5 0; mkStore "B" 1 0; mkStore "C" 3 0; mkStore "D" 2 2 ].

End Route.

(* ------------------------------------------------------------------ *)
(** ** Front end: the API client ([services/api.js]) *)
(* ------------------------------------------------------------------ *)

Module Api.

(** [window.location.hostname !== 'localhost'
     && window.location.hostname !== '127.0.0.1'] *)
Definition isProduction (hostname : string) : bool :=
  negb (String.eqb hostname "localhost")
  && negb (String.eqb hostname "127.0.0.1").

(** [API_BASE_URL]; [None] is an undefined [VITE_API_URL], and [||]
    passes over an empty one as well. *)
Definition API_BASE_URL (hostname : string) (VITE_API_URL : option string)
  : string :=
  if isProduction hostname
  then "https://liquiverde-platform.onrender.com/api"
  else match VITE_API_URL with
       | Some url =>
           if String.eqb url "" then "http://localhost:8000/api" else url
       | None => "http://localhost:8000/api"
       end.

End Api.

(* ================================================================== *)
(** * Part II: properties *)
(* ================================================================== *)

(** ** Shared facts about the rationals and about lists *)

Lemma Qle_bool_false (x y : Q) : Qle_bool x y = false <-> (y < x)%Q.
Proof.
  split; intros H.
  - apply Qnot_le_lt. intros Hle. apply Qle_bool_iff in Hle. congruence.
  - destruct (Qle_bool x y) eqn:E; [|reflexivity].
    apply Qle_bool_iff in E. apply Qle_not_lt in E. contradiction.
Qed.

Lemma clamp_bounds (lo hi x : Q) :
  (lo <= hi)%Q -> (lo <= clamp lo hi x <= hi)%Q.
Proof.
  intros Hle. unfold clamp. split.
  - apply Q.min_glb; [assumption | apply Q.le_max_l].
  - apply Q.le_min_l.
Qed.

Lemma Qlt_bool_iff (x y : Q) : Qlt_bool x y = true <-> (x < y)%Q.
Proof.
  unfold Qlt_bool. rewrite negb_true_iff. apply Qle_bool_false.
Qed.

Lemma Qlt_bool_false (x y : Q) : Qlt_bool x y = false <-> (y <= x)%Q.
Proof.
  unfold Qlt_bool. rewrite negb_false_iff. apply Qle_bool_iff.
Qed.

(* ------------------------------------------------------------------ *)
(** ** The shopping-list page *)
(* ------------------------------------------------------------------ *)

Module ShoppingListProofs.

Import ShoppingList.

Lemma same_id_spec (x : string) (e : entry) :
  same_id x e = true <-> entry_id e = x.
Proof. unfold same_id. apply String.eqb_eq. Qed.

Lemma find_none_not_in (x : string) (s : list entry) :
  find (same_id x) s = None -> ~ In x (ids s).
Proof.
  intros Hfind Hin. unfold ids in Hin.
  apply in_map_iff in Hin as [e [He Hine]].
  pose proof (find_none _ _ Hfind e Hine) as Hf.
  apply same_id_spec in He. congruence.
Qed.

Lemma ids_filter_incl (f : entry -> bool) (s : list entry) (x : string) :
  In x (ids (filter f s)) -> In x (ids s).
Proof.
  unfold ids. rewrite !in_map_iff. intros [e [He Hin]].
  apply filter_In in Hin as [Hin _]. eauto.
Qed.

Lemma ids_filter_nodup (f : entry -> bool) (s : list entry) :
  NoDup (ids s) -> NoDup (ids (filter f s)).
Proof.
  induction s as [|e s IH]; simpl; intros Hnd; [constructor|].
  inversion Hnd as [|? ? Hnotin Hnd']; subst.
  destruct (f e); simpl; auto.
  constructor; auto.
  intros Hin. apply Hnotin. eapply ids_filter_incl; eassumption.
Qed.

Lemma ids_updateQuantity (i : string) (q : jsint) (s : list entry) :
  ids (updateQuantity i q s) = ids s.
Proof.
  unfold ids, updateQuantity. rewrite map_map.
  apply map_ext. intros e. destruct (same_id i e); reflexivity.
Qed.

Lemma addProduct_present (p : product) (s : list entry) :
  In (id p) (ids s) -> addProduct p s = s.
Proof.
  intros Hin. unfold addProduct.
  destruct (find (same_id (id p)) s) eqn:Hfind; [reflexivity|].
  exfalso. eapply find_none_not_in; eassumption.
Qed.

Lemma addProduct_absent (p : product) (s : list entry) :
  ~ In (id p) (ids s) -> addProduct p s = s ++ [spread p].
Proof.
  intros Hnot. unfold addProduct.
  destruct (find (same_id (id p)) s) as [e|] eqn:Hfind; [|reflexivity].
  exfalso. apply Hnot. apply find_some in Hfind as [Hin He].
  apply same_id_spec in He. unfold ids. apply in_map_iff. eauto.
Qed.

Lemma step_preserves_unique (s : list entry) (a : action) :
  NoDup (ids s) -> NoDup (ids (step s a)).
Proof.
  intros Hnd. destruct a as [p | i | i q]; simpl.
  - unfold addProduct.
    destruct (find (same_id (id p)) s) eqn:Hfind; [assumption|].
    unfold ids. rewrite map_app. simpl.
    apply NoDup_app; repeat split.
    + exact Hnd.
    + constructor; [intros []|constructor].
    + intros x Hx [Hx'|[]]. subst x.
      eapply find_none_not_in; eassumption.
  - apply ids_filter_nodup; assumption.
  - rewrite ids_updateQuantity; assumption.
Qed.

Lemma fold_step_unique (acts : list action) (s : list entry) :
  NoDup (ids s) -> NoDup (ids (fold_left step acts s)).
Proof.
  revert s. induction acts as [|a acts IH]; simpl; intros s Hnd.
  - assumption.
  - apply IH. apply step_preserves_unique; assumption.
Qed.

(** A handler may run on the state of an earlier render; whatever state it
    started from, the state it writes is one step from a state the page
    has been in. *)
Lemma reachable_unique (s : list entry) :
  reachable s -> NoDup (ids s).
Proof.
  induction 1 as [|s a Hs IH]; [constructor|].
  apply step_preserves_unique. assumption.
Qed.

Lemma removeProduct_only_removes (i : string) (s : list entry) (e : entry) :
  In e (removeProduct i s) -> In e s.
Proof. unfold removeProduct. intros H. apply filter_In in H. tauto. Qed.

(** C9.  In the shopping-list page the selected-products list never holds
    two entries with the same product id.  From the empty list, after any
    sequence of [addProduct], [removeProduct] and [updateQuantity], the
    ids of the list are pairwise distinct; on the way [addProduct] leaves
    the list as it is when the id is present and appends one entry when it
    is not, [removeProduct] keeps only entries that were there, and
    [updateQuantity] leaves the ids as they were. *)
Theorem selected_ids_unique :
  forall acts : list action,
    NoDup (ids (run acts))
    /\ (forall p s, In (id p) (ids s) -> addProduct p s = s)
    /\ (forall p s, ~ In (id p) (ids s) -> addProduct p s = s ++ [spread p])
    /\ (forall i s e, In e (removeProduct i s) -> In e s)
    /\ (forall i q s, ids (updateQuantity i q s) = ids s).
Proof.
  intros acts. split; [|split; [|split; [|split]]].
  - unfold run. apply fold_step_unique. constructor.
  - exact addProduct_present.
  - exact addProduct_absent.
  - exact removeProduct_only_removes.
  - exact ids_updateQuantity.
Qed.

(** *** Quantities, removal and the total *)

Lemma step_preserves_quantities (s : list entry) (a : action) :
  Forall quantity_ok s -> Forall quantity_ok (step s a).
Proof.
  intros Hs. destruct a as [p | i | i q]; simpl.
  - unfold addProduct. destruct (find _ s); [assumption|].
    apply Forall_app. split; [assumption|].
    repeat constructor. unfold quantity_ok. simpl. lia.
  - unfold removeProduct. rewrite Forall_forall in *.
    intros e He. apply filter_In in He. apply Hs. tauto.
  - unfold updateQuantity. rewrite Forall_forall in *.
    intros e He. apply in_map_iff in He as [e0 [He0 Hin]].
    destruct (same_id i e0); subst e.
    + unfold quantity_ok. simpl. destruct q; simpl; [lia | exact I].
    + apply Hs. assumption.
Qed.

(** X1.  Whatever the user does, a quantity in the list that is a number
    is at least 1: [addProduct] starts at 1 and [updateQuantity] raises
    anything smaller to 1. *)
Theorem quantities_at_least_one :
  forall acts : list action, Forall quantity_ok (run acts).
Proof.
  intros acts. unfold run.
  assert (H : Forall quantity_ok initial) by constructor.
  revert H. generalize initial.
  induction acts as [|a acts IH]; simpl; intros s Hs; [assumption|].
  apply IH. apply step_preserves_quantities. assumption.
Qed.

Lemma removeProduct_not_in (i : string) (s : list entry) :
  ~ In i (ids (removeProduct i s)).
Proof.
  unfold ids, removeProduct. intros Hin.
  apply in_map_iff in Hin as [e [He Hin]].
  apply filter_In in Hin as [_ Hneg].
  apply negb_true_iff in Hneg.
  apply same_id_spec in He. congruence.
Qed.

(** X2.  [removeProduct] takes out every entry with the given id and no
    other entry; adding the product again afterwards appends a fresh
    entry (quantity 1, priority 3) at the end of the list. *)
Theorem remove_then_add_resets :
  forall (p : product) (s : list entry),
    ~ In (id p) (ids (removeProduct (id p) s))
    /\ (forall e, In e s -> entry_id e <> id p ->
                  In e (removeProduct (id p) s))
    /\ addProduct p (removeProduct (id p) s)
       = removeProduct (id p) s ++ [spread p].
Proof.
  intros p s. split; [apply removeProduct_not_in|]. split.
  - intros e Hin Hne. unfold removeProduct. apply filter_In.
    split; [assumption|]. apply negb_true_iff.
    destruct (same_id (id p) e) eqn:E; [|reflexivity].
    apply same_id_spec in E. contradiction.
  - apply addProduct_absent. apply removeProduct_not_in.
Qed.

(** X3.  After [addProduct] the product is listed, and adding it a second
    time changes nothing: the entry, with the quantity it has by then, is
    kept. *)
Theorem addProduct_idempotent :
  forall (p : product) (s : list entry),
    In (id p) (ids (addProduct p s))
    /\ addProduct p (addProduct p s) = addProduct p s
    /\ forall i q,
         addProduct p (updateQuantity i q (addProduct p s))
         = updateQuantity i q (addProduct p s).
Proof.
  intros p s.
  assert (Hin : In (id p) (ids (addProduct p s))).
  { unfold addProduct. destruct (find (same_id (id p)) s) as [e|] eqn:E.
    - apply find_some in E as [Hin He]. apply same_id_spec in He.
      unfold ids. apply in_map_iff. eauto.
    - unfold ids. rewrite map_app. apply in_or_app. right. left.
      reflexivity. }
  split; [exact Hin|]. split.
  - apply addProduct_present. exact Hin.
  - intros i q. apply addProduct_present.
    rewrite ids_updateQuantity. exact Hin.
Qed.

Section Doubles.

Variable number : Type.
Variable nan : number.
Variable zero : number.
Variable of_int : Z -> number.
Variable add mul : number -> number -> number.
Variable price_value : entry -> number.

(** What IEEE 754 says of [NaN]: it passes through [*] and [+]. *)
Hypothesis mul_nan : forall x, mul x nan = nan.
Hypothesis add_nan_r : forall x, add x nan = nan.
Hypothesis add_nan_l : forall x, add nan x = nan.

Lemma fold_total_stays_nan (s : list entry) :
  fold_left
    (fun sum p =>
       add sum (mul (price_value p)
                    (quantity_value nan of_int (quantity p))))
    s nan = nan.
Proof.
  induction s as [|e s IH]; simpl; [reflexivity|].
  rewrite add_nan_l. exact IH.
Qed.

Lemma fold_total_nan (s : list entry) :
  Exists (fun e => quantity e = NaN) s ->
  forall acc,
    fold_left
      (fun sum p =>
         add sum (mul (price_value p)
                      (quantity_value nan of_int (quantity p))))
      s acc = nan.
Proof.
  induction 1 as [e s He | e s Hs IH]; intros acc; simpl.
  - rewrite He. simpl. rewrite mul_nan, add_nan_r.
    apply fold_total_stays_nan.
  - apply IH.
Qed.

(** X4.  A [NaN] quantity makes the total of the page [NaN], whatever
    the prices and the other quantities; so emptying the quantity box of
    a listed product ([parseInt] gives [NaN], which [Math.max] lets
    through) turns the total into [NaN]. *)
Theorem nan_quantity_makes_total_nan :
  forall s : list entry,
    (Exists (fun e => quantity e = NaN) s ->
     totalCost nan zero of_int add mul price_value s = nan)
    /\ forall i,
         In i (ids s) ->
         totalCost nan zero of_int add mul price_value
                   (updateQuantity i NaN s) = nan.
Proof.
  intros s. split.
  - intros H. unfold totalCost. apply fold_total_nan. exact H.
  - intros i Hin. unfold totalCost. apply fold_total_nan.
    apply Exists_exists.
    unfold ids in Hin. apply in_map_iff in Hin as [e [He Hin]].
    exists (mkEntry (entry_id e) (entry_name e) (entry_price e)
                    (math_max_1 NaN) (priority e)).
    split; [|reflexivity].
    unfold updateQuantity. apply in_map_iff. exists e. split; [|assumption].
    apply same_id_spec in He. rewrite He. reflexivity.
Qed.

End Doubles.

Lemma nan_quantity_makes_total_nan_witness :
  exact_total emptied_box = None
  /\ exact_total (updateQuantity "milk" NaN emptied_box) = None.
Proof.
  assert (Hmul : forall x, exact_mul x None = None)
    by (intros [x|]; reflexivity).
  assert (Hr : forall x, exact_add x None = None)
    by (intros [x|]; reflexivity).
  assert (Hl : forall x, exact_add None x = None)
    by (intros x; reflexivity).
  destruct (nan_quantity_makes_total_nan
              (option Q) None (Some 0%Q) (fun z => Some (inject_Z z))
              exact_add exact_mul (fun p => Some (entry_price p))
              Hmul Hr Hl emptied_box) as [Hnan Hupdate].
  split.
  - apply Hnan. left. reflexivity.
  - apply Hupdate. left. reflexivity.
Defined.

(** X5.  [optimizeList] sends nothing for an empty list; for any list the
    page can hold, the request names each selected product exactly once,
    in the order of the list. *)
Theorem optimize_request_names_each_product_once :
  forall (acts : list action) (maxBudget : jsint),
    (run acts = [] <-> optimizeList (run acts) maxBudget = None)
    /\ forall r,
         optimizeList (run acts) maxBudget = Some r ->
         product_ids r = ids (run acts)
         /\ NoDup (product_ids r)
         /\ max_budget r = maxBudget.
Proof.
  intros acts maxBudget. split.
  - unfold optimizeList. destruct (run acts); split; intros H;
      try reflexivity; discriminate.
  - intros r Hr. unfold optimizeList in Hr.
    destruct (run acts) as [|e s] eqn:E; [discriminate|].
    inversion Hr; subst; clear Hr. simpl product_ids. simpl max_budget.
    repeat split.
    pose proof (fold_step_unique acts initial) as Hnd.
    unfold run in E. rewrite E in Hnd. apply Hnd. constructor.
Qed.

End ShoppingListProofs.

(* ------------------------------------------------------------------ *)
(** ** The API client *)
(* ------------------------------------------------------------------ *)

Module ApiProofs.

Import Api.

(** X26.  Away from [localhost] and [127.0.0.1] the client talks to the
    production server whatever [VITE_API_URL] says; on those two hosts a
    non-empty [VITE_API_URL] is used as it is; and the base URL is never
    empty. *)
Theorem base_url_by_host :
  forall (hostname : string) (VITE_API_URL : option string),
    (hostname <> "localhost"%string -> hostname <> "127.0.0.1"%string ->
     API_BASE_URL hostname VITE_API_URL
     = "https://liquiverde-platform.onrender.com/api"%string)
    /\ (hostname = "localhost"%string \/ hostname = "127.0.0.1"%string ->
        forall url, VITE_API_URL = Some url -> url <> ""%string ->
                    API_BASE_URL hostname VITE_API_URL = url)
    /\ API_BASE_URL hostname VITE_API_URL <> ""%string.
Proof.
  intros hostname env. unfold API_BASE_URL, isProduction.
  assert (Hlocal : match env with
                   | Some url =>
                       if String.eqb url ""
                       then "http://localhost:8000/api"%string else url
                   | None => "http://localhost:8000/api"%string
                   end <> ""%string).
  { destruct env as [url|]; [|discriminate].
    destruct (String.eqb_spec url ""); [discriminate | assumption]. }
  assert (Henv : forall url, env = Some url -> url <> ""%string ->
                   match env with
                   | Some url =>
                       if String.eqb url ""
                       then "http://localhost:8000/api"%string else url
                   | None => "http://localhost:8000/api"%string
                   end = url).
  { intros url -> Hne.
    destruct (String.eqb_spec url ""); [contradiction | reflexivity]. }
  destruct (String.eqb_spec hostname "localhost") as [E1|E1];
    destruct (String.eqb_spec hostname "127.0.0.1") as [E2|E2];
    cbn [negb andb]; (split; [|split]);
    try (intros; contradiction);
    try (intros _; exact Henv);
    try exact Hlocal.
  - reflexivity.
  - intros [H|H]; contradiction.
  - discriminate.
Qed.

End ApiProofs.

(* ------------------------------------------------------------------ *)
(** ** The scanner page *)
(* ------------------------------------------------------------------ *)

Module ScannerProofs.

Import Scanner.

Local Open Scope Q_scope.

Ltac split_score q :=
  unfold getSustainabilityLabel, getSustainabilityColor, ge;
  destruct (Qle_bool 70 q) eqn:H70; destruct (Qle_bool 50 q) eqn:H50;
  try (apply Qle_bool_iff in H70); try (apply Qle_bool_iff in H50);
  try (apply Qle_bool_false in H70); try (apply Qle_bool_false in H50).

Ltac settle :=
  repeat split; intros;
  try discriminate; try reflexivity; try lra;
  try (exfalso; lra).

(** C10.  For a numeric score the scanner page picks exactly one of three
    labels: Excelente iff score >= 70, Bueno iff 50 <= score < 70,
    Mejorable iff score < 50; the colour is green, yellow or red on the
    same three conditions, so label and colour agree on the bucket. *)
Theorem label_and_color_buckets :
  forall q : Q,
    let score := Finite q in
    (getSustainabilityLabel score = "Excelente"%string <-> 70 <= q)
    /\ (getSustainabilityLabel score = "Bueno"%string <-> 50 <= q < 70)
    /\ (getSustainabilityLabel score = "Mejorable"%string <-> q < 50)
    /\ (getSustainabilityColor score = "text-green-600 bg-green-100"%string
        <-> 70 <= q)
    /\ (getSustainabilityColor score = "text-yellow-600 bg-yellow-100"%string
        <-> 50 <= q < 70)
    /\ (getSustainabilityColor score = "text-red-600 bg-red-100"%string
        <-> q < 50).
Proof.
  intros q score. subst score. split_score q; settle.
Qed.

(** A score that is not a number falls through both tests. *)
Lemma not_a_number_falls_through :
  getSustainabilityLabel NotANumber = "Mejorable"%string
  /\ getSustainabilityColor NotANumber = "text-red-600 bg-red-100"%string.
Proof. split; reflexivity. Qed.

(** *** The handlers of the page *)

Section Page.

Variable P : Type.

Lemma interactions_keep_error (meanwhile : list interaction) :
  forall st : page P,
    error (fold_left interact meanwhile st) = error st
    /\ loading (fold_left interact meanwhile st) = loading st.
Proof.
  induction meanwhile as [|a meanwhile IH]; intros st; [split; reflexivity|].
  cbn [fold_left]. destruct (IH (interact st a)) as [He Hl].
  rewrite He, Hl. destruct a as [s | s | i]; simpl; try (split; reflexivity).
  destruct (nth_error (searchResults st) i); split; reflexivity.
Qed.

Lemma interactions_keep_product (meanwhile : list interaction) :
  forallb (fun a => negb (is_pick a)) meanwhile = true ->
  forall st : page P, product (fold_left interact meanwhile st) = product st.
Proof.
  induction meanwhile as [|a meanwhile IH]; intros Hno st; [reflexivity|].
  cbn [fold_left forallb] in *. apply andb_true_iff in Hno as [Ha Hno].
  rewrite (IH Hno). destruct a; simpl in *; try reflexivity. discriminate.
Qed.

Lemma scan_error_truthy (detail : jsvalue) : truthy (scan_error detail) = true.
Proof.
  unfold scan_error. destruct (truthy detail) eqn:E; [exact E | reflexivity].
Qed.


(** X7.  A search with a non-blank query ends with the page not loading
    and the product shown left as it was; an error is shown exactly when
    the list of results is empty, be it because the request failed or
    because nothing was found. *)
Theorem search_shows_results_or_error :
  forall (st : page P) (response : outcome (list P)),
    blank (searchQuery st) = false ->
    let st' := handleSearch st response in
    loading st' = false
    /\ product st' = product st
    /\ (error st' = None <-> searchResults st' <> [])
    /\ (forall data, response = Resolved data -> searchResults st' = data).
Proof.
  intros st response Hb. unfold handleSearch. rewrite Hb.
  destruct response as [[|x data] | detail]; simpl;
    repeat split; try discriminate; try congruence.
Qed.

(** X8.  Picking a result shows it, empties the result list and the
    query; submitting the search form again right away does nothing,
    whatever the server would have answered. *)
Theorem select_then_search_is_idle :
  forall (st : page P) (selected : P) (response : outcome (list P)),
    let st' := selectProduct st selected in
    product st' = Some selected
    /\ searchResults st' = []
    /\ searchQuery st' = []
    /\ handleSearch st' response = st'.
Proof.
  intros st selected response. simpl. repeat split.
Qed.

End Page.

Lemma search_shows_results_or_error_witness :
  let st' := handleSearch sample_page (Resolved [7%nat; 9%nat]) in
  loading st' = false
  /\ product st' = product sample_page
  /\ (error st' = None <-> searchResults st' <> [])
  /\ (forall data, Resolved [7%nat; 9%nat] = Resolved data ->
                   searchResults st' = data).
Proof.
  apply (search_shows_results_or_error nat sample_page
           (Resolved [7%nat; 9%nat])).
  reflexivity.
Defined.

End ScannerProofs.

(* ------------------------------------------------------------------ *)
(** ** The sustainability scorer *)
(* ------------------------------------------------------------------ *)

Module ScorerProofs.

Import Scorer.

Local Open Scope Q_scope.

Lemma scorer_accepts (p : product) (avg : Q) :
  0 <= price p -> 0 <= weight_kg p -> 0 <= avg ->
  validate_product p avg = Ok tt.
Proof.
  intros Hp Hw Ha. unfold validate_product.
  apply Qlt_bool_false in Hp, Hw, Ha. rewrite Hp, Hw, Ha. reflexivity.
Qed.

Lemma scorer_rejects (p : product) (avg : Q) :
  price p < 0 \/ weight_kg p < 0 \/ avg < 0 ->
  validate_product p avg = Raise InvalidInput.
Proof.
  intros H. unfold validate_product.
  destruct H as [H | [H | H]]; apply Qlt_bool_iff in H; rewrite H;
    rewrite ?orb_true_r; reflexivity.
Qed.

Lemma scorer_check_cases (p : product) (avg : Q) :
  validate_product p avg = Ok tt \/ validate_product p avg = Raise InvalidInput.
Proof.
  unfold validate_product.
  destruct (Qlt_bool (price p) 0 || Qlt_bool (weight_kg p) 0
            || Qlt_bool avg 0); auto.
Qed.

(** Away from a zero average the ratio falls in its bracket; at a zero
    average the division raises. *)
Lemma ratio_adjustment_nonzero (p : product) (avg : Q) :
  ~ avg == 0 ->
  ratio_adjustment p avg = Ok (price_adjustment (price p / avg)).
Proof.
  intros Hnz. unfold ratio_adjustment, checked_div.
  destruct (Qeq_bool avg 0) eqn:E; [|reflexivity].
  apply Qeq_bool_iff in E. contradiction.
Qed.

Lemma ratio_adjustment_zero (p : product) (avg : Q) :
  avg == 0 -> ratio_adjustment p avg = Raise ZeroDivisionError.
Proof.
  intros Hz. unfold ratio_adjustment, checked_div.
  apply Qeq_bool_iff in Hz. rewrite Hz. reflexivity.
Qed.

Lemma ratio_adjustment_inv (p : product) (avg adj : Q) :
  ratio_adjustment p avg = Ok adj ->
  ~ avg == 0 /\ adj = price_adjustment (price p / avg).
Proof.
  intros H. destruct (Qeq_dec avg 0) as [Hz|Hnz].
  - rewrite (ratio_adjustment_zero p avg Hz) in H. discriminate.
  - rewrite (ratio_adjustment_nonzero p avg Hnz) in H.
    inversion H. split; [assumption | reflexivity].
Qed.

Section Scores.

Variables default_carbon_factor bulk_rate : Q.

Local Abbreviation score := (score default_carbon_factor bulk_rate).

Lemma score_inv (p : product) (avg : Q) (s : SustainabilityScore) :
  score p avg = Ok s ->
  exists adj,
    ratio_adjustment p avg = Ok adj
    /\ economic_score s
       = clamp_axis (50 + adj + nutrition_bonus p + bulk_bonus bulk_rate p)
    /\ environmental_score s
       = environmental_score_of default_carbon_factor p
    /\ social_score s = social_score_of p
    /\ overall_score s
       = economic_score s * 0.33 + environmental_score s * 0.34
         + social_score s * 0.33.
Proof.
  unfold Scorer.score, economic_score_of. intros H.
  destruct (validate_product p avg) as [[]|e]; simpl in H; [|discriminate].
  destruct (ratio_adjustment p avg) as [adj|e] eqn:Hadj; simpl in H;
    [|discriminate].
  inversion H; subst; clear H. simpl.
  exists adj. repeat split.
Qed.

(** C2.  Whenever the scorer accepts a product and a category average,
    each of the three axis scores lies in [0,100] (it has been clamped),
    the overall score is economic * 0.33 + environmental * 0.34 +
    social * 0.33, and the overall score lies in [0,100] as well. *)
Theorem overall_score_weighted_sum :
  forall (p : product) (categoryAverage : Q) (s : SustainabilityScore),
    score p categoryAverage = Ok s ->
    0 <= economic_score s <= 100
    /\ 0 <= environmental_score s <= 100
    /\ 0 <= social_score s <= 100
    /\ overall_score s
       == economic_score s * 0.33 + environmental_score s * 0.34
          + social_score s * 0.33
    /\ 0 <= overall_score s <= 100.
Proof.
  intros p avg s H.
  destruct (score_inv p avg s H) as (adj & _ & He & Hv & Hs & Ho).
  assert (Hb : 0 <= 100) by lra.
  assert (B1 : 0 <= economic_score s <= 100)
    by (rewrite He; apply clamp_bounds; exact Hb).
  assert (B2 : 0 <= environmental_score s <= 100)
    by (rewrite Hv; apply clamp_bounds; exact Hb).
  assert (B3 : 0 <= social_score s <= 100)
    by (rewrite Hs; apply clamp_bounds; exact Hb).
  repeat split; try tauto.
  - rewrite Ho. reflexivity.
  - rewrite Ho. lra.
  - rewrite Ho. lra.
Qed.


End Scores.

(** The example of the specification: price 1000 at a category average
    of 1000, no nutrition data, no bulk bonus: 50 + 10 = 60. *)
Example economic_score_at_average :
  exists e, economic_score_of 0 sample_dairy 1000 = Ok e /\ e == 60.
Proof. eexists. split; reflexivity. Qed.

Lemma overall_score_weighted_sum_witness :
  exists s,
    score 2 1 sample_dairy 1000 = Ok s
    /\ 0 <= overall_score s <= 100.
Proof.
  eexists. split; [vm_compute; reflexivity|].
  eapply (overall_score_weighted_sum 2 1 sample_dairy 1000).
  vm_compute. reflexivity.
Defined.


(** *** Monotonicity and floors of the axes *)

Lemma clamp_mono (lo hi x y : Q) : x <= y -> clamp lo hi x <= clamp lo hi y.
Proof.
  intros H. unfold clamp.
  apply Q.min_le_compat_l, Q.max_le_compat_l. assumption.
Qed.

Lemma clamp_floor (lo hi x low : Q) :
  low <= x -> low <= hi -> low <= clamp lo hi x.
Proof.
  intros Hx Hhi. unfold clamp. apply Q.min_glb; [assumption|].
  eapply Qle_trans; [exact Hx | apply Q.le_max_r].
Qed.

Ltac brackets :=
  repeat match goal with
         | |- context [Qlt_bool ?a ?b] =>
             let E := fresh "E" in
             destruct (Qlt_bool a b) eqn:E;
             [apply Qlt_bool_iff in E | apply Qlt_bool_false in E];
             cbv iota; try lra
         end.

(** A lower ratio never falls in a worse bracket. *)
Lemma price_adjustment_antitone (r1 r2 : Q) :
  r1 <= r2 -> price_adjustment r2 <= price_adjustment r1.
Proof. intros H. unfold price_adjustment. brackets. Qed.

Lemma price_adjustment_floor (r : Q) : -20 <= price_adjustment r.
Proof. unfold price_adjustment. brackets. Qed.

Lemma footprint_delta_antitone (c1 c2 : Q) :
  c1 <= c2 -> footprint_delta c2 <= footprint_delta c1.
Proof. intros H. unfold footprint_delta. brackets. Qed.

Lemma footprint_delta_floor (c : Q) : -25 <= footprint_delta c.
Proof. unfold footprint_delta. brackets. Qed.

Lemma carbon_factor_nonneg (c : string) (default : Q) :
  0 <= default -> 0 <= dict_get CARBON_FACTORS c default.
Proof.
  intros Hd.
  assert (Hall : Forall (fun kv => 0 <= snd kv) CARBON_FACTORS)
    by (unfold CARBON_FACTORS; repeat constructor; simpl; lra).
  induction Hall as [|[k v] d Hv Hd' IH]; simpl; [assumption|].
  destruct (String.eqb k c); assumption.
Qed.

Lemma transport_rate_nonneg (o : origin) :
  0 <= transport_distance o / 1000 * 0.1.
Proof. destruct o; vm_compute; discriminate. Qed.

Lemma ratio_le (a b avg : Q) : 0 < avg -> a <= b -> a / avg <= b / avg.
Proof.
  intros Havg Hab. unfold Qdiv. apply Qmult_le_compat_r; [assumption|].
  apply Qinv_le_0_compat. lra.
Qed.

(** X17.  At a fixed, positive category average a cheaper product never
    gets a lower economic score: lowering the price, all else equal, can
    only move the price ratio to a better bracket. *)
Theorem cheaper_never_scores_lower :
  forall (bulk_rate : Q) (p : product) (price' categoryAverage e e' : Q),
    0 < categoryAverage ->
    price' <= price p ->
    economic_score_of bulk_rate p categoryAverage = Ok e ->
    economic_score_of bulk_rate (with_price p price') categoryAverage
    = Ok e' ->
    e <= e'.
Proof.
  intros rate p price' avg e e' Havg Hle He He'.
  unfold economic_score_of in *.
  assert (Hne : ~ avg == 0) by lra.
  rewrite (ratio_adjustment_nonzero p avg Hne) in He.
  rewrite (ratio_adjustment_nonzero (with_price p price') avg Hne) in He'.
  cbn [bind] in He, He'.
  inversion He; subst e. inversion He'; subst e'. clear He He'.
  unfold clamp_axis. apply clamp_mono.
  assert (Hadjle : price_adjustment (price p / avg)
                   <= price_adjustment (price' / avg))
    by (apply price_adjustment_antitone, ratio_le; assumption).
  change (price (with_price p price')) with price'.
  change (nutrition_bonus (with_price p price')) with (nutrition_bonus p).
  change (bulk_bonus rate (with_price p price')) with (bulk_bonus rate p).
  lra.
Qed.

Lemma carbon_footprint_nonneg (default : Q) (p : product) :
  0 <= default -> 0 <= weight_kg p -> 0 <= carbon_footprint default p.
Proof.
  intros Hd Hw. unfold carbon_footprint, raw_footprint, transport_carbon.
  pose proof (carbon_factor_nonneg (category p) default Hd) as Hf.
  pose proof (transport_rate_nonneg (product_origin p)) as Ht.
  set (rate := transport_distance (product_origin p) / 1000 * 0.1) in *.
  set (factor := dict_get CARBON_FACTORS (category p) default) in *.
  destruct (has_label "organic" p); destruct (is_local p); nra.
Qed.

(** X18.  The footprint is never negative: for a product of non-negative
    weight, with a non-negative default emission factor, the carbon
    footprint and the three impact equivalences derived from it are all
    non-negative, whatever the category, origin and labels. *)
Theorem footprint_never_negative :
  forall (default_carbon_factor : Q) (p : product),
    0 <= default_carbon_factor ->
    0 <= weight_kg p ->
    let carbon := carbon_footprint default_carbon_factor p in
    0 <= carbon
    /\ 0 <= km_driven (equivalences_of carbon)
    /\ 0 <= trees_needed (equivalences_of carbon)
    /\ 0 <= days_of_energy (equivalences_of carbon).
Proof.
  intros dcf p Hd Hw carbon.
  pose proof (carbon_footprint_nonneg dcf p Hd Hw) as Hc.
  subst carbon. unfold equivalences_of. cbn [km_driven trees_needed
                                              days_of_energy].
  unfold Qdiv. repeat split; try assumption;
    (apply Qmult_le_0_compat; [assumption | vm_compute; discriminate]).
Qed.

(** X19.  The axes have floors above zero: the social score is at least
    50 and the environmental score at least 25; when the bulk bonus is
    not negative the economic score is at least 30, and the overall
    score then at least 34.9. *)
Theorem scores_have_floors :
  forall (default_carbon_factor bulk_rate : Q) (p : product)
         (categoryAverage : Q) (s : SustainabilityScore),
    score default_carbon_factor bulk_rate p categoryAverage = Ok s ->
    50 <= social_score s
    /\ 25 <= environmental_score s
    /\ (0 <= bulk_rate * purchased_quantity p ->
        30 <= economic_score s /\ 34.9 <= overall_score s).
Proof.
  intros dcf rate p avg s Hs.
  destruct (score_inv dcf rate p avg s Hs) as (adj & Hadj & He & Hv & Hso & Ho).
  assert (Hsocial : 50 <= social_score s).
  { rewrite Hso. unfold social_score_of, clamp_axis.
    apply clamp_floor; [|lra].
    destruct (has_label "fair-trade" p); destruct (has_label "b-corp" p);
      destruct (is_local p); destruct (is_regional p);
      destruct (has_label "small-producer" p);
      destruct (has_label "cooperative" p); lra. }
  assert (Henv : 25 <= environmental_score s).
  { rewrite Hv. unfold environmental_score_of, clamp_axis.
    apply clamp_floor; [|lra].
    pose proof (footprint_delta_floor (carbon_footprint dcf p)).
    destruct (has_label "organic" p); destruct (has_label "eco-friendly" p);
      destruct (is_local p); lra. }
  split; [exact Hsocial|]. split; [exact Henv|].
  intros Hbulk.
  assert (Heco : 30 <= economic_score s).
  { rewrite He. unfold clamp_axis. apply clamp_floor; [|lra].
    assert (Hadj' : -20 <= adj).
    { apply ratio_adjustment_inv in Hadj as [_ ->].
      apply price_adjustment_floor. }
    assert (Hnb : 0 <= nutrition_bonus p).
    { unfold nutrition_bonus.
      destruct (exceeds (proteins p) 10 || exceeds (fiber p) 5); lra. }
    assert (Hbb : 0 <= bulk_bonus rate p).
    { unfold bulk_bonus. apply Q.min_glb; [lra | assumption]. }
    lra. }
  split; [exact Heco|]. rewrite Ho. lra.
Qed.

(** X20.  A lighter product never gets a lower environmental score: with
    a non-negative default emission factor, lowering the weight, all
    else equal, lowers the footprint, and a lower footprint never falls
    in a worse bracket. *)
Theorem lighter_never_scores_lower :
  forall (default_carbon_factor : Q) (p : product) (weight' : Q),
    0 <= default_carbon_factor ->
    weight' <= weight_kg p ->
    carbon_footprint default_carbon_factor (with_weight p weight')
    <= carbon_footprint default_carbon_factor p
    /\ environmental_score_of default_carbon_factor p
       <= environmental_score_of default_carbon_factor
            (with_weight p weight').
Proof.
  intros dcf p weight' Hd Hle.
  assert (Hfoot : carbon_footprint dcf (with_weight p weight')
                  <= carbon_footprint dcf p).
  { unfold carbon_footprint, raw_footprint, transport_carbon.
    change (weight_kg (with_weight p weight')) with weight'.
    change (category (with_weight p weight')) with (category p).
    change (product_origin (with_weight p weight')) with (product_origin p).
    change (has_label "organic" (with_weight p weight'))
      with (has_label "organic" p).
    change (is_local (with_weight p weight')) with (is_local p).
    pose proof (carbon_factor_nonneg (category p) dcf Hd) as Hf.
    pose proof (transport_rate_nonneg (product_origin p)) as Ht.
    set (rate := transport_distance (product_origin p) / 1000 * 0.1) in *.
    set (factor := dict_get CARBON_FACTORS (category p) dcf) in *.
    destruct (has_label "organic" p); destruct (is_local p); nra. }
  split; [exact Hfoot|].
  unfold environmental_score_of, clamp_axis. apply clamp_mono.
  pose proof (footprint_delta_antitone _ _ Hfoot) as Hdelta.
  change (has_label "organic" (with_weight p weight'))
    with (has_label "organic" p).
  change (has_label "eco-friendly" (with_weight p weight'))
    with (has_label "eco-friendly" p).
  change (is_local (with_weight p weight')) with (is_local p).
  lra.
Qed.

Lemma cheaper_never_scores_lower_witness :
  exists e e',
    economic_score_of 1 sample_dairy 1000 = Ok e
    /\ economic_score_of 1 (with_price sample_dairy 700) 1000 = Ok e'
    /\ e <= e'.
Proof.
  eexists. eexists.
  split; [vm_compute; reflexivity|].
  split; [vm_compute; reflexivity|].
  apply (cheaper_never_scores_lower 1 sample_dairy 700 1000).
  - reflexivity.
  - vm_compute. discriminate.
  - vm_compute. reflexivity.
  - vm_compute. reflexivity.
Defined.

Lemma footprint_never_negative_witness :
  0 <= carbon_footprint 2 sample_dairy
  /\ 0 <= km_driven (equivalences_of (carbon_footprint 2 sample_dairy))
  /\ 0 <= trees_needed (equivalences_of (carbon_footprint 2 sample_dairy))
  /\ 0 <= days_of_energy (equivalences_of (carbon_footprint 2 sample_dairy)).
Proof.
  apply (footprint_never_negative 2 sample_dairy).
  - vm_compute. discriminate.
  - vm_compute. discriminate.
Defined.

Lemma scores_have_floors_witness :
  exists s,
    score 2 1 sample_dairy 1000 = Ok s
    /\ 50 <= social_score s
    /\ 25 <= environmental_score s.
Proof.
  eexists. split; [vm_compute; reflexivity|].
  assert (H := scores_have_floors 2 1 sample_dairy 1000).
  split; eapply H; vm_compute; reflexivity.
Defined.

Lemma lighter_never_scores_lower_witness :
  carbon_footprint 2 (with_weight sample_dairy 0.5)
  <= carbon_footprint 2 sample_dairy
  /\ environmental_score_of 2 sample_dairy
     <= environmental_score_of 2 (with_weight sample_dairy 0.5).
Proof.
  apply (lighter_never_scores_lower 2 sample_dairy 0.5).
  - vm_compute. discriminate.
  - vm_compute. discriminate.
Defined.

End ScorerProofs.

(* ------------------------------------------------------------------ *)
(** ** The knapsack optimiser *)
(* ------------------------------------------------------------------ *)

Module KnapsackProofs.

Import Knapsack.

Local Open Scope Z_scope.

Lemma in_quantities (d q : Z) : In q (quantities d) <-> 1 <= q <= d.
Proof.
  unfold quantities. rewrite in_map_iff. split.
  - intros [n [Hn Hin]]. apply in_seq in Hin. lia.
  - intros H. exists (Z.to_nat q). split; [lia|]. apply in_seq. lia.
Qed.

Lemma Forall2_rev {A B : Type} (P : A -> B -> Prop) (l1 : list A)
      (l2 : list B) :
  Forall2 P l1 l2 -> Forall2 P (rev l1) (rev l2).
Proof.
  induction 1; simpl; [constructor|].
  apply Forall2_app; [assumption|]. repeat constructor. assumption.
Qed.

Lemma selection_cost_app (xs xs' : list item) (ys ys' : list Z) :
  List.length xs = List.length ys ->
  selection_cost (xs ++ xs') (ys ++ ys')
  = selection_cost xs ys + selection_cost xs' ys'.
Proof.
  revert ys. induction xs as [|x xs IH]; intros [|y ys] Hlen;
    simpl in *; try discriminate; [reflexivity|].
  rewrite IH by lia. lia.
Qed.

Lemma selection_cost_rev (xs : list item) (ys : list Z) :
  List.length xs = List.length ys ->
  selection_cost (rev xs) (rev ys) = selection_cost xs ys.
Proof.
  revert ys. induction xs as [|x xs IH]; intros [|y ys] Hlen;
    simpl in *; try discriminate; [reflexivity|].
  rewrite selection_cost_app by (rewrite !length_rev; lia).
  rewrite IH by lia. simpl. lia.
Qed.

Section Table.

Variable w : weights.

Lemma selection_value_app (xs xs' : list item) (ys ys' : list Z) :
  List.length xs = List.length ys ->
  (selection_value w (xs ++ xs') (ys ++ ys')
   == selection_value w xs ys + selection_value w xs' ys')%Q.
Proof.
  revert ys. induction xs as [|x xs IH]; intros [|y ys] Hlen;
    simpl in *; try discriminate; [ring|].
  rewrite IH by lia. ring.
Qed.

Lemma selection_value_rev (xs : list item) (ys : list Z) :
  List.length xs = List.length ys ->
  (selection_value w (rev xs) (rev ys) == selection_value w xs ys)%Q.
Proof.
  revert ys. induction xs as [|x xs IH]; intros [|y ys] Hlen;
    simpl in *; try discriminate; [reflexivity|].
  rewrite selection_value_app by (rewrite !length_rev; lia).
  rewrite IH by lia. simpl. ring.
Qed.

Lemma fold_improve_ok (prev : Z -> Q) (it : item) (b : Z) (qs : list Z) :
  forall best,
    (forall q, In q qs -> 1 <= q <= desired it) ->
    cell_ok w prev it b best ->
    cell_ok w prev it b (fold_left (improve w prev it b) qs best).
Proof.
  induction qs as [|q qs IH]; simpl; intros best Hqs Hbest; [assumption|].
  apply IH; [intros q' Hq'; apply Hqs; right; assumption|].
  unfold improve.
  destruct (cost it q <=? b) eqn:Hfit; [|assumption].
  destruct (Qlt_le_dec _ _); [|assumption].
  right. simpl. apply Z.leb_le in Hfit.
  repeat split; try assumption; apply Hqs; left; reflexivity.
Qed.

Lemma dp_cell (it : item) (earlier : list item) (b : Z) :
  cell_ok w (fun b' => fst (dp w earlier b')) it b (dp w (it :: earlier) b).
Proof.
  simpl. apply fold_improve_ok.
  - intros q Hq. apply in_quantities. assumption.
  - left. reflexivity.
Qed.

Lemma backtrack_length (upto : list item) :
  forall b, List.length (backtrack w upto b) = List.length upto.
Proof.
  induction upto as [|it earlier IH]; intros b; simpl; [reflexivity|].
  rewrite IH. reflexivity.
Qed.

Lemma backtrack_cost (upto : list item) :
  forall b, 0 <= b -> selection_cost upto (backtrack w upto b) <= b.
Proof.
  induction upto as [|it earlier IH]; intros b Hb; [simpl; lia|].
  change (backtrack w (it :: earlier) b)
    with (snd (dp w (it :: earlier) b)
          :: backtrack w earlier
               (b - cost it (snd (dp w (it :: earlier) b)))).
  cbn [selection_cost].
  destruct (dp_cell it earlier b) as [Heq | (Hq & Hfit & _)].
  - rewrite Heq. cbn [snd].
    replace (cost it 0) with 0 by (unfold cost; lia).
    rewrite Z.sub_0_r. specialize (IH b Hb). lia.
  - specialize (IH (b - cost it (snd (dp w (it :: earlier) b)))). lia.
Qed.

Lemma backtrack_range (upto : list item) :
  Forall (fun it => 0 <= desired it) upto ->
  forall b,
    Forall2 (fun it q => 0 <= q <= desired it) upto (backtrack w upto b).
Proof.
  induction 1 as [|it earlier Hd Hrest IH]; intros b; [constructor|].
  change (backtrack w (it :: earlier) b)
    with (snd (dp w (it :: earlier) b)
          :: backtrack w earlier
               (b - cost it (snd (dp w (it :: earlier) b)))).
  constructor; [|apply IH].
  destruct (dp_cell it earlier b) as [Heq | (Hq & _)].
  - rewrite Heq. simpl. lia.
  - lia.
Qed.

(** The selection read back from the table is worth what the table says. *)
Lemma backtrack_value (upto : list item) :
  forall b,
    (selection_value w upto (backtrack w upto b) == fst (dp w upto b))%Q.
Proof.
  induction upto as [|it earlier IH]; intros b; [reflexivity|].
  change (backtrack w (it :: earlier) b)
    with (snd (dp w (it :: earlier) b)
          :: backtrack w earlier
               (b - cost it (snd (dp w (it :: earlier) b)))).
  cbn [selection_value].
  destruct (dp_cell it earlier b) as [Heq | (_ & _ & Hv)].
  - rewrite Heq. cbn [fst snd].
    replace (cost it 0) with 0 by (unfold cost; lia).
    rewrite Z.sub_0_r, IH. unfold item_value. simpl. ring.
  - rewrite Hv. rewrite IH. ring.
Qed.

Lemma fold_improve_mono (prev : Z -> Q) (it : item) (b b' : Z)
      (qs : list Z) :
  b <= b' ->
  (forall x y, x <= y -> (prev x <= prev y)%Q) ->
  forall best best',
    (fst best <= fst best')%Q ->
    (fst (fold_left (improve w prev it b) qs best)
     <= fst (fold_left (improve w prev it b') qs best'))%Q.
Proof.
  intros Hb Hprev. induction qs as [|q qs IH]; simpl; intros best best' Hle;
    [assumption|].
  apply IH. unfold improve.
  destruct (cost it q <=? b) eqn:Hfit; destruct (cost it q <=? b') eqn:Hfit';
    try apply Z.leb_le in Hfit; try apply Z.leb_le in Hfit';
    try apply Z.leb_gt in Hfit; try apply Z.leb_gt in Hfit'; try lia.
  - assert (Hc : (prev (b - cost it q)%Z <= prev (b' - cost it q)%Z)%Q)
      by (apply Hprev; lia).
    repeat destruct (Qlt_le_dec _ _); simpl; lra.
  - destruct (Qlt_le_dec _ _); simpl; lra.
  - assumption.
Qed.

(** A larger budget never lowers a cell of the table. *)
Lemma dp_mono (upto : list item) :
  forall b b', b <= b' -> (fst (dp w upto b) <= fst (dp w upto b'))%Q.
Proof.
  induction upto as [|it earlier IH]; intros b b' Hb; simpl; [lra|].
  apply fold_improve_mono; auto.
  simpl. apply IH. assumption.
Qed.

(** No quantity fits: the cell keeps the cell above, quantity 0. *)
Lemma fold_improve_none (prev : Z -> Q) (it : item) (b : Z) (qs : list Z) :
  (forall q, In q qs -> b < cost it q) ->
  forall best, fold_left (improve w prev it b) qs best = best.
Proof.
  induction qs as [|q qs IH]; simpl; intros Hqs best; [reflexivity|].
  rewrite IH by (intros; apply Hqs; right; assumption).
  unfold improve.
  assert (H : (cost it q <=? b) = false)
    by (apply Z.leb_gt; apply Hqs; left; reflexivity).
  rewrite H. reflexivity.
Qed.

Lemma backtrack_unaffordable (upto : list item) (b : Z) :
  0 <= b ->
  Forall (fun it => b < price (item_product it)) upto ->
  backtrack w upto b = repeat 0 (List.length upto).
Proof.
  intros Hb. induction 1 as [|it earlier Hp Hrest IH]; [reflexivity|].
  assert (Hcell : dp w (it :: earlier) b = (fst (dp w earlier b), 0)).
  { simpl. apply fold_improve_none. intros q Hq.
    apply in_quantities in Hq. unfold cost. nia. }
  change (backtrack w (it :: earlier) b)
    with (snd (dp w (it :: earlier) b)
          :: backtrack w earlier
               (b - cost it (snd (dp w (it :: earlier) b)))).
  rewrite Hcell. cbn [snd].
  replace (cost it 0) with 0 by (unfold cost; lia).
  rewrite Z.sub_0_r, IH. reflexivity.
Qed.

Lemma solve_length (items : list item) (budget : Z) :
  List.length (solve w items budget) = List.length items.
Proof.
  unfold solve. rewrite length_rev, backtrack_length, length_rev.
  reflexivity.
Qed.

Lemma solve_cost (items : list item) (budget : Z) :
  0 <= budget -> selection_cost items (solve w items budget) <= budget.
Proof.
  intros Hb. unfold solve.
  rewrite <- (rev_involutive items) at 1.
  rewrite selection_cost_rev by (rewrite backtrack_length; reflexivity).
  apply backtrack_cost. assumption.
Qed.

Lemma solve_range (items : list item) (budget : Z) :
  Forall (fun it => 0 <= desired it) items ->
  Forall2 (fun it q => 0 <= q <= desired it) items (solve w items budget).
Proof.
  intros Hd. unfold solve.
  rewrite <- (rev_involutive items) at 1.
  apply Forall2_rev. apply backtrack_range.
  apply Forall_rev. assumption.
Qed.

Lemma solve_value (items : list item) (budget : Z) :
  (selection_value w items (solve w items budget)
   == fst (dp w (rev items) budget))%Q.
Proof.
  unfold solve.
  rewrite <- (rev_involutive items) at 1.
  rewrite selection_value_rev by (rewrite backtrack_length; reflexivity).
  apply backtrack_value.
Qed.

End Table.

Lemma knapsack_accepts (w : weights) (budget : Z) :
  0 <= budget -> nonnegative w -> validate_input w budget = Ok tt.
Proof.
  intros Hb (H1 & H2 & H3). unfold validate_input.
  apply Qlt_bool_false in H1, H2, H3. rewrite H1, H2, H3.
  apply Z.ltb_ge in Hb. rewrite Hb. reflexivity.
Qed.

Lemma knapsack_rejects (w : weights) (budget : Z) :
  budget < 0
  \/ (sustainability_weight w < 0)%Q
  \/ (savings_weight w < 0)%Q
  \/ (priority_weight w < 0)%Q ->
  validate_input w budget = Raise InvalidInput.
Proof.
  unfold validate_input. intros [H | [H | [H | H]]].
  - apply Z.ltb_lt in H. rewrite H. reflexivity.
  - apply Qlt_bool_iff in H. rewrite H, ?orb_true_r. reflexivity.
  - apply Qlt_bool_iff in H. rewrite H, ?orb_true_r. reflexivity.
  - apply Qlt_bool_iff in H. rewrite H, ?orb_true_r. reflexivity.
Qed.

Lemma optimize_valid (w : weights) (items : list item) (budget : Z) :
  0 <= budget -> nonnegative w ->
  optimize w items budget
  = Ok (solve w items budget, stats_of items budget (solve w items budget)).
Proof.
  intros Hb Hw. unfold optimize. rewrite (knapsack_accepts w budget Hb Hw).
  reflexivity.
Qed.

Lemma selection_cost_zeros (items : list item) :
  selection_cost items (repeat 0 (List.length items)) = 0.
Proof.
  induction items as [|it items IH]; simpl; [reflexivity|].
  rewrite IH. unfold cost. lia.
Qed.

Lemma rev_zeros (n : nat) : rev (repeat 0 n) = repeat 0 n.
Proof.
  induction n as [|n IH]; simpl; [reflexivity|].
  rewrite IH. symmetry. apply repeat_cons.
Qed.

Lemma filter_positive_zeros (n : nat) :
  filter (fun q => 0 <? q) (repeat 0 n) = [].
Proof. induction n as [|n IH]; simpl; [reflexivity | exact IH]. Qed.

Lemma sum_zeros (n : nat) : fold_right Z.add 0 (repeat 0 n) = 0.
Proof. induction n as [|n IH]; simpl; [reflexivity | exact IH]. Qed.

(** C1.  On a valid input (budget, objective weights, prices and desired
    quantities all non-negative) the optimiser returns a selection whose
    total cost, the sum of unit price times chosen quantity, is at most
    the budget, and in which every chosen quantity lies between 0 and the
    desired quantity of its product. *)
Theorem selection_within_budget :
  forall (w : weights) (items : list item) (budget : Z),
    0 <= budget ->
    nonnegative w ->
    Forall (fun it => 0 <= price (item_product it) /\ 0 <= desired it)
           items ->
    exists qs st,
      optimize w items budget = Ok (qs, st)
      /\ total_cost st = selection_cost items qs
      /\ total_cost st <= budget
      /\ Forall2 (fun it q => 0 <= q <= desired it) items qs.
Proof.
  intros w items budget Hb Hw Hitems.
  exists (solve w items budget).
  exists (stats_of items budget (solve w items budget)).
  split; [apply optimize_valid; assumption|].
  split; [reflexivity|].
  split; [simpl; apply solve_cost; assumption|].
  apply solve_range.
  eapply Forall_impl; [|exact Hitems]. simpl. tauto.
Qed.

(** C4.  With the products, desired quantities and weights fixed, the
    objective value of the returned selection is monotone in the budget:
    for budgets b1 <= b2 the selection returned for b2 is worth at least
    the selection returned for b1. *)
Theorem value_monotone_in_budget :
  forall (w : weights) (items : list item) (b1 b2 : Z),
    0 <= b1 ->
    b1 <= b2 ->
    nonnegative w ->
    exists qs1 st1 qs2 st2,
      optimize w items b1 = Ok (qs1, st1)
      /\ optimize w items b2 = Ok (qs2, st2)
      /\ (selection_value w items qs1 <= selection_value w items qs2)%Q.
Proof.
  intros w items b1 b2 H1 H12 Hw.
  exists (solve w items b1), (stats_of items b1 (solve w items b1)).
  exists (solve w items b2), (stats_of items b2 (solve w items b2)).
  split; [apply optimize_valid; assumption|].
  split; [apply optimize_valid; [lia | assumption]|].
  rewrite !solve_value. apply dp_mono. assumption.
Qed.

(** C7.  A budget that is non-negative but below the price of every
    product gives the empty selection, all quantities 0 and total cost 0,
    as a normal result; a negative budget or a negative objective weight
    gives [InvalidInput] and no selection. *)
Theorem empty_selection_is_not_an_error :
  forall (w : weights) (items : list item) (budget : Z),
    (0 <= budget ->
     nonnegative w ->
     Forall (fun it => budget < price (item_product it)) items ->
     optimize w items budget
     = Ok (repeat 0 (List.length items), mkStats 0 budget 0 0))
    /\ (budget < 0
        \/ (sustainability_weight w < 0)%Q
        \/ (savings_weight w < 0)%Q
        \/ (priority_weight w < 0)%Q ->
        optimize w items budget = Raise InvalidInput).
Proof.
  intros w items budget. split.
  - intros Hb Hw Hp. rewrite optimize_valid by assumption.
    assert (Hs : solve w items budget = repeat 0 (List.length items)).
    { unfold solve. rewrite backtrack_unaffordable.
      - rewrite rev_zeros, length_rev. reflexivity.
      - assumption.
      - apply Forall_rev. assumption. }
    rewrite Hs. unfold stats_of.
    rewrite selection_cost_zeros, filter_positive_zeros, sum_zeros.
    rewrite Z.sub_0_r. reflexivity.
  - intros Hneg. unfold optimize.
    rewrite (knapsack_rejects w budget Hneg). reflexivity.
Qed.

Lemma selection_within_budget_witness :
  exists qs st,
    optimize sample_weights sample_items 700 = Ok (qs, st)
    /\ total_cost st = selection_cost sample_items qs
    /\ total_cost st <= 700
    /\ Forall2 (fun it q => 0 <= q <= desired it) sample_items qs.
Proof.
  apply (selection_within_budget sample_weights sample_items 700).
  - lia.
  - unfold nonnegative, sample_weights; simpl; repeat split; lra.
  - unfold sample_items; repeat constructor; simpl; lia.
Defined.

Lemma value_monotone_in_budget_witness :
  exists qs1 st1 qs2 st2,
    optimize sample_weights sample_items 400 = Ok (qs1, st1)
    /\ optimize sample_weights sample_items 700 = Ok (qs2, st2)
    /\ (selection_value sample_weights sample_items qs1
        <= selection_value sample_weights sample_items qs2)%Q.
Proof.
  apply (value_monotone_in_budget sample_weights sample_items 400 700).
  - lia.
  - lia.
  - unfold nonnegative, sample_weights; simpl; repeat split; lra.
Defined.

Lemma empty_selection_is_not_an_error_witness :
  optimize sample_weights sample_items 250
  = Ok ([0; 0], mkStats 0 250 0 0)
  /\ optimize sample_weights sample_items (-1) = Raise InvalidInput.
Proof.
  split.
  - apply (empty_selection_is_not_an_error sample_weights sample_items 250).
    + lia.
    + unfold nonnegative, sample_weights; simpl; repeat split; lra.
    + unfold sample_items; repeat constructor; simpl; lia.
  - apply (empty_selection_is_not_an_error sample_weights sample_items (-1)).
    left. lia.
Defined.

(** *** Optimality of the table *)

Section Optimal.

Variable w : weights.

Lemma fold_improve_ge_best (prev : Z -> Q) (it : item) (b : Z)
      (qs : list Z) :
  forall best,
    (fst best <= fst (fold_left (improve w prev it b) qs best))%Q.
Proof.
  induction qs as [|q qs IH]; intros best; simpl; [lra|].
  eapply Qle_trans; [|apply IH].
  unfold improve. destruct (cost it q <=? b); [|lra].
  destruct (Qlt_le_dec _ _); simpl; lra.
Qed.

Lemma fold_improve_ge_candidate (prev : Z -> Q) (it : item) (b : Z)
      (qs : list Z) :
  forall best q,
    In q qs ->
    cost it q <= b ->
    (prev (b - cost it q)%Z + item_value w it q
     <= fst (fold_left (improve w prev it b) qs best))%Q.
Proof.
  induction qs as [|x qs IH]; intros best q Hin Hfit; [destruct Hin|].
  simpl. destruct Hin as [->|Hin]; [|apply IH; assumption].
  eapply Qle_trans; [|apply fold_improve_ge_best].
  unfold improve. apply Z.leb_le in Hfit. rewrite Hfit.
  destruct (Qlt_le_dec _ _); simpl; lra.
Qed.

Lemma selection_cost_nonneg (upto : list item) :
  Forall (fun it => 0 <= price (item_product it)) upto ->
  forall qs,
    Forall2 (fun it q => 0 <= q <= desired it) upto qs ->
    0 <= selection_cost upto qs.
Proof.
  intros Hp qs Hqs. induction Hqs as [|it q upto qs Hq Hrest IH];
    simpl; [lia|].
  inversion Hp; subst. specialize (IH H2). unfold cost. nia.
Qed.

(** No selection that respects the desired quantities and the budget is
    worth more than the cell of the table. *)
Lemma dp_optimal (upto : list item) :
  Forall (fun it => 0 <= price (item_product it)) upto ->
  forall qs b,
    Forall2 (fun it q => 0 <= q <= desired it) upto qs ->
    selection_cost upto qs <= b ->
    (selection_value w upto qs <= fst (dp w upto b))%Q.
Proof.
  intros Hp qs b Hqs. revert b.
  induction Hqs as [|it q earlier qs Hq Hrest IH]; intros b Hcost;
    [simpl; lra|].
  inversion Hp as [|? ? Hpit Hpe]; subst.
  specialize (IH Hpe).
  pose proof (selection_cost_nonneg earlier Hpe qs Hrest) as Hnn.
  cbn [selection_cost selection_value] in *.
  assert (Hfit : cost it q <= b) by lia.
  specialize (IH (b - cost it q) ltac:(lia)).
  destruct (Z.eq_dec q 0) as [->|Hq0].
  - cbn [dp].
    eapply Qle_trans; [|apply fold_improve_ge_best]. cbn [fst].
    replace (cost it 0) with 0 in IH by (unfold cost; lia).
    rewrite Z.sub_0_r in IH. unfold item_value.
    change (inject_Z 0) with 0%Q. lra.
  - cbn [dp].
    eapply Qle_trans;
      [|apply (fold_improve_ge_candidate
                 (fun b' => fst (dp w earlier b')) it b
                 (quantities (desired it)) _ q)].
    + lra.
    + apply in_quantities. lia.
    + assumption.
Qed.

End Optimal.

Lemma solve_optimal (w : weights) (items : list item) (budget : Z)
      (other : list Z) :
  Forall (fun it => 0 <= price (item_product it)) items ->
  Forall2 (fun it q => 0 <= q <= desired it) items other ->
  selection_cost items other <= budget ->
  (selection_value w items other
   <= selection_value w items (solve w items budget))%Q.
Proof.
  intros Hp Hother Hcost. rewrite solve_value.
  assert (Hlen : List.length items = List.length other)
    by (eapply Forall2_length; eassumption).
  rewrite <- (selection_value_rev w items other Hlen).
  apply dp_optimal.
  - apply Forall_rev. assumption.
  - apply Forall2_rev. assumption.
  - rewrite selection_cost_rev by assumption. assumption.
Qed.

(** X15.  The selection the optimiser returns is optimal: on a valid
    input, no choice of quantities between 0 and the desired ones whose
    cost is within the budget has a higher objective value. *)
Theorem returned_selection_is_optimal :
  forall (w : weights) (items : list item) (budget : Z) (other : list Z),
    0 <= budget ->
    nonnegative w ->
    Forall (fun it => 0 <= price (item_product it)) items ->
    Forall2 (fun it q => 0 <= q <= desired it) items other ->
    selection_cost items other <= budget ->
    exists qs st,
      optimize w items budget = Ok (qs, st)
      /\ (selection_value w items other <= selection_value w items qs)%Q.
Proof.
  intros w items budget other Hb Hw Hp Hother Hcost.
  exists (solve w items budget), (stats_of items budget (solve w items budget)).
  split; [apply optimize_valid; assumption|].
  apply solve_optimal; assumption.
Qed.

Lemma selection_value_le_full (w : weights) (items : list item) :
  Forall (fun it => (0 <= value w (item_product it))%Q) items ->
  forall qs,
    Forall2 (fun it q => 0 <= q <= desired it) items qs ->
    (selection_value w items qs
     <= selection_value w items (map desired items))%Q.
Proof.
  intros Hv qs Hqs. induction Hqs as [|it q items qs Hq Hrest IH];
    simpl; [lra|].
  inversion Hv as [|? ? Hvit Hvrest]; subst. specialize (IH Hvrest).
  unfold item_value.
  assert (Hle : (inject_Z q <= inject_Z (desired it))%Q)
    by (rewrite <- Zle_Qle; lia).
  nra.
Qed.

(** X16.  When everything on the list fits in the budget, nothing of
    value is left out: the selection returned is worth as much as the
    whole list at the desired quantities (products of value 0 apart, the
    quantities are the desired ones). *)
Theorem whole_list_when_affordable :
  forall (w : weights) (items : list item) (budget : Z),
    nonnegative w ->
    Forall (fun it => 0 <= price (item_product it) /\ 0 <= desired it
                      /\ (0 <= value w (item_product it))%Q) items ->
    selection_cost items (map desired items) <= budget ->
    exists qs st,
      optimize w items budget = Ok (qs, st)
      /\ (selection_value w items qs
          == selection_value w items (map desired items))%Q.
Proof.
  intros w items budget Hw Hitems Hfits.
  assert (Hp : Forall (fun it => 0 <= price (item_product it)) items)
    by (eapply Forall_impl; [|exact Hitems]; simpl; tauto).
  assert (Hd : Forall (fun it => 0 <= desired it) items)
    by (eapply Forall_impl; [|exact Hitems]; simpl; tauto).
  assert (Hv : Forall (fun it => (0 <= value w (item_product it))%Q) items)
    by (eapply Forall_impl; [|exact Hitems]; simpl; tauto).
  assert (Hfull : Forall2 (fun it q => 0 <= q <= desired it) items
                          (map desired items)).
  { clear -Hd. induction Hd; simpl; constructor; [lia | assumption]. }
  assert (Hb : 0 <= budget).
  { pose proof (selection_cost_nonneg items Hp _ Hfull). lia. }
  exists (solve w items budget), (stats_of items budget (solve w items budget)).
  split; [apply optimize_valid; assumption|].
  apply Qle_antisym.
  - apply selection_value_le_full; [assumption|].
    apply solve_range. assumption.
  - apply solve_optimal; assumption.
Qed.

Lemma returned_selection_is_optimal_witness :
  exists qs st,
    optimize sample_weights sample_items 700 = Ok (qs, st)
    /\ (selection_value sample_weights sample_items [1%Z; 0%Z]
        <= selection_value sample_weights sample_items qs)%Q.
Proof.
  apply (returned_selection_is_optimal sample_weights sample_items 700
           [1; 0]).
  - lia.
  - unfold nonnegative, sample_weights; simpl; repeat split; lra.
  - unfold sample_items; repeat constructor; simpl; lia.
  - unfold sample_items; repeat constructor; simpl; lia.
  - vm_compute. discriminate.
Defined.

Lemma whole_list_when_affordable_witness :
  exists qs st,
    optimize sample_weights sample_items 1100 = Ok (qs, st)
    /\ (selection_value sample_weights sample_items qs
        == selection_value sample_weights sample_items
             (map desired sample_items))%Q.
Proof.
  apply (whole_list_when_affordable sample_weights sample_items 1100).
  - unfold nonnegative, sample_weights; simpl; repeat split; lra.
  - unfold sample_items; repeat constructor; simpl; try lia;
      vm_compute; discriminate.
  - vm_compute. discriminate.
Defined.

End KnapsackProofs.

(* ------------------------------------------------------------------ *)
(** ** The substitute finder *)
(* ------------------------------------------------------------------ *)

Module SubstitutionProofs.

Import Substitution.

Local Open Scope Q_scope.

Lemma passes_admissible (maxinc minimp : Q) (p c : product) :
  passes maxinc minimp p c = true <-> admissible maxinc minimp p c.
Proof.
  unfold passes, admissible, improvement.
  rewrite andb_true_iff, !negb_true_iff, !Qlt_bool_false. tauto.
Qed.

Lemma before_iff (a b : SubstitutionResult) :
  before a b = true <-> ranks_before a b.
Proof.
  unfold before, ranks_before.
  rewrite orb_true_iff, andb_true_iff, Qlt_bool_iff, Qeq_bool_iff,
    Qle_bool_iff.
  tauto.
Qed.

(** Any two results are comparable. *)
Lemma before_total (a b : SubstitutionResult) :
  before a b = false -> ranks_before b a.
Proof.
  unfold before, ranks_before. intros H.
  apply orb_false_iff in H as [H1 H2]. apply Qlt_bool_false in H1.
  destruct (Qlt_le_dec (score a) (score b)) as [Hlt|Hge]; [left; assumption|].
  right. assert (Heq : score a == score b) by lra.
  split; [symmetry; assumption|].
  apply Qeq_bool_iff in Heq. rewrite Heq in H2. simpl in H2.
  apply Qle_bool_false in H2. lra.
Qed.

Lemma ranks_before_trans (a b c : SubstitutionResult) :
  ranks_before a b -> ranks_before b c -> ranks_before a c.
Proof.
  unfold ranks_before. intros [H1 | [H1 H1']] [H2 | [H2 H2']].
  - left. lra.
  - left. lra.
  - left. lra.
  - right. split; lra.
Qed.

Lemma insert_Forall (P : SubstitutionResult -> Prop) (r : SubstitutionResult)
      (l : list SubstitutionResult) :
  P r -> Forall P l -> Forall P (insert r l).
Proof.
  intros Hr. induction 1 as [|x l Hx Hl IH]; simpl.
  - repeat constructor. assumption.
  - destruct (before r x); repeat constructor; assumption.
Qed.

Lemma sort_Forall (P : SubstitutionResult -> Prop)
      (l : list SubstitutionResult) :
  Forall P l -> Forall P (sort l).
Proof.
  induction 1 as [|x l Hx Hl IH]; simpl; [constructor|].
  apply insert_Forall; assumption.
Qed.

Lemma insert_sorted (r : SubstitutionResult) (l : list SubstitutionResult) :
  StronglySorted ranks_before l -> StronglySorted ranks_before (insert r l).
Proof.
  induction 1 as [|x l Hsorted IH Hx]; simpl.
  - repeat constructor.
  - destruct (before r x) eqn:E.
    + apply before_iff in E. constructor.
      * constructor; assumption.
      * constructor; [assumption|].
        eapply Forall_impl; [|exact Hx].
        intros y Hy. eapply ranks_before_trans; eassumption.
    + apply before_total in E. constructor; [assumption|].
      apply insert_Forall; assumption.
Qed.

Lemma sort_sorted (l : list SubstitutionResult) :
  StronglySorted ranks_before (sort l).
Proof.
  induction l as [|x l IH]; simpl; [constructor|].
  apply insert_sorted. assumption.
Qed.

Lemma sort_permutation (l : list SubstitutionResult) :
  Permutation (sort l) l.
Proof.
  induction l as [|x l IH]; simpl; [constructor|].
  transitivity (x :: sort l); [|constructor; assumption].
  clear IH. induction (sort l) as [|y s IHs]; simpl; [reflexivity|].
  destruct (before x y); [reflexivity|].
  transitivity (y :: x :: s); [constructor; assumption | constructor].
Qed.

Lemma evaluate_fields (p c : product) (r : SubstitutionResult) :
  evaluate p c = Ok r -> original r = p /\ substitute r = c.
Proof.
  unfold evaluate.
  destruct (savings_percent p c) as [pct|]; simpl; [|discriminate].
  destruct (nutritional_similarity p c) as [n|]; simpl; [|discriminate].
  intros H. inversion H; subst. simpl. split; reflexivity.
Qed.

Lemma evaluate_all_fields (p : product) (cs : list product) :
  forall rs,
    evaluate_all p cs = Ok rs ->
    Forall (fun r => original r = p /\ In (substitute r) cs) rs.
Proof.
  induction cs as [|c cs IH]; simpl; intros rs H.
  - inversion H; subst. constructor.
  - destruct (evaluate p c) as [r|] eqn:Er; simpl in H; [|discriminate].
    destruct (evaluate_all p cs) as [rs'|]; simpl in H; [|discriminate].
    inversion H; subst. apply evaluate_fields in Er as [Ho Hs].
    constructor; [split; [assumption | left; congruence]|].
    eapply Forall_impl; [|apply IH; reflexivity].
    simpl. intros a [Ha Hin]. split; [assumption | right; assumption].
Qed.

(** C3.  Every result that [find_substitutes] returns is a candidate of
    the pool that satisfies both filters, price <= original price *
    (1 + maxPriceIncreasePct) and improvement of the overall score >=
    minSustainabilityImprovement; and the list is in descending order of
    score, equal scores in ascending order of candidate price. *)
Theorem substitutes_filtered_and_sorted :
  forall (p : product) (candidate_pool : list product)
         (max_price_increase min_sustainability_improvement : Q)
         (results : list SubstitutionResult),
    find_substitutes p candidate_pool max_price_increase
                     min_sustainability_improvement = Ok results ->
    Forall (fun r =>
              original r = p
              /\ In (substitute r) candidate_pool
              /\ price (substitute r) <= price p * (1 + max_price_increase)
              /\ min_sustainability_improvement
                 <= overall_score (substitute r) - overall_score p)
           results
    /\ StronglySorted ranks_before results.
Proof.
  intros p pool maxinc minimp results H. unfold find_substitutes in H.
  destruct (evaluate_all p (filter (passes maxinc minimp p) pool))
    as [scored|] eqn:E; simpl in H; [|discriminate].
  inversion H; subst; clear H. split; [|apply sort_sorted].
  apply sort_Forall.
  eapply Forall_impl; [|apply (evaluate_all_fields _ _ _ E)].
  simpl. intros r [Ho Hin]. apply filter_In in Hin as [Hin Hpass].
  apply passes_admissible in Hpass as [Hprice Himp].
  repeat split; assumption.
Qed.

Lemma substitutes_filtered_and_sorted_witness :
  exists results,
    find_substitutes sample_yogurt sample_pool 0.1 5 = Ok results
    /\ List.length results = 2%nat
    /\ StronglySorted ranks_before results.
Proof.
  eexists. split; [vm_compute; reflexivity|].
  split; [reflexivity|].
  eapply (substitutes_filtered_and_sorted sample_yogurt sample_pool 0.1 5).
  vm_compute. reflexivity.
Defined.

(** *** Range of the score *)

Lemma checked_div_inv (a b x : Q) :
  checked_div a b = Ok x -> ~ b == 0 /\ x = a / b.
Proof.
  unfold checked_div. destruct (Qeq_bool b 0) eqn:E; [discriminate|].
  intros H. inversion H; subst. split; [|reflexivity].
  intros Hz. apply Qeq_bool_iff in Hz. congruence.
Qed.

Lemma checked_div_ok (a b : Q) : ~ b == 0 -> checked_div a b = Ok (a / b).
Proof.
  intros Hb. unfold checked_div. destruct (Qeq_bool b 0) eqn:E;
    [|reflexivity].
  apply Qeq_bool_iff in E. contradiction.
Qed.

Lemma metric_similarity_range (v1 v2 : option Q) (l : list Q) :
  not_negative v1 -> not_negative v2 ->
  metric_similarity v1 v2 = Ok l -> Forall in_percent l.
Proof.
  destruct v1 as [a|]; destruct v2 as [b|]; cbn [not_negative];
    intros Ha Hb H; unfold metric_similarity in H;
    try (inversion H; subst; constructor).
  destruct (checked_div (Qabs (a - b)) (Qmax a b)) as [diff|] eqn:E;
    cbn [bind] in H; [|discriminate].
  inversion H; subst; clear H.
  apply checked_div_inv in E as [Hnz ->].
  assert (Hmax : 0 < Qmax a b).
  { destruct (Q.max_spec a b) as [[_ Hm]|[_ Hm]]; rewrite Hm in *; lra. }
  assert (Habs : Qabs (a - b) <= Qmax a b).
  { apply Qabs_Qle_condition.
    destruct (Q.max_spec a b) as [[Hlt Hm]|[Hle Hm]]; rewrite Hm; lra. }
  assert (Hlow : 0 <= Qabs (a - b) / Qmax a b).
  { apply Qle_shift_div_l; [assumption|].
    pose proof (Qabs_nonneg (a - b)). lra. }
  assert (Hhigh : Qabs (a - b) / Qmax a b <= 1).
  { apply Qle_shift_div_r; [assumption|]. lra. }
  repeat constructor; unfold in_percent; lra.
Qed.

Lemma Qsum_range (l : list Q) :
  Forall in_percent l ->
  0 <= Qsum l <= 100 * inject_Z (Z.of_nat (List.length l)).
Proof.
  induction 1 as [|x l Hx Hl IH].
  - simpl. split; [lra|]. vm_compute. discriminate.
  - cbn [Qsum fold_right List.length]. fold (Qsum l).
    rewrite Nat2Z.inj_succ. unfold Z.succ. rewrite inject_Z_plus.
    unfold in_percent in Hx. change (inject_Z 1) with 1. lra.
Qed.

Lemma average_range (l : list Q) :
  Forall in_percent l -> l <> [] ->
  in_percent (Qsum l / inject_Z (Z.of_nat (List.length l))).
Proof.
  intros Hl Hne. pose proof (Qsum_range l Hl) as [Hlow Hhigh].
  assert (Hn : 0 < inject_Z (Z.of_nat (List.length l))).
  { destruct l; [contradiction|]. change 0 with (inject_Z 0).
    rewrite <- Zlt_Qlt. simpl List.length. lia. }
  split.
  - apply Qle_shift_div_l; [assumption | lra].
  - apply Qle_shift_div_r; assumption.
Qed.

Lemma nutritional_similarity_range (p c : product) (n : Q) :
  nonnegative_nutrients p -> nonnegative_nutrients c ->
  nutritional_similarity p c = Ok n -> in_percent n.
Proof.
  intros (P1 & P2 & P3 & P4) (C1 & C2 & C3 & C4).
  unfold nutritional_similarity.
  destruct (metric_similarity (energy_kcal p) (energy_kcal c)) as [s1|] eqn:E1;
    simpl; [|discriminate].
  destruct (metric_similarity (proteins p) (proteins c)) as [s2|] eqn:E2;
    simpl; [|discriminate].
  destruct (metric_similarity (carbs p) (carbs c)) as [s3|] eqn:E3;
    simpl; [|discriminate].
  destruct (metric_similarity (fats p) (fats c)) as [s4|] eqn:E4;
    simpl; [|discriminate].
  apply metric_similarity_range in E1, E2, E3, E4; try assumption.
  assert (Hall : Forall in_percent (s1 ++ s2 ++ s3 ++ s4))
    by (repeat (apply Forall_app; split); assumption).
  intros H. apply checked_div_inv in H as [Hlen ->].
  apply average_range; [exact Hall|].
  intros Hnil. apply Hlen. rewrite Hnil. reflexivity.
Qed.

Lemma category_match_range (c1 c2 : string) :
  30 <= category_match c1 c2 <= 100.
Proof.
  unfold category_match. destruct (String.eqb c1 c2); [lra|].
  destruct (_ || _); lra.
Qed.

Lemma evaluate_inv (p c : product) (r : SubstitutionResult) :
  evaluate p c = Ok r ->
  exists pct nutrition,
    savings_percent p c = Ok pct
    /\ nutritional_similarity p c = Ok nutrition
    /\ score r
       = clamp 0 100 (improvement p c) * 0.35
         + clamp 0 100 (pct * 5) * 0.30
         + category_match (category p) (category c) * 0.20
         + nutrition * 0.15.
Proof.
  unfold evaluate.
  destruct (savings_percent p c) as [pct|]; simpl; [|discriminate].
  destruct (nutritional_similarity p c) as [n|]; simpl; [|discriminate].
  intros H. inversion H; subst. simpl. eauto.
Qed.

Lemma evaluate_all_Forall2 (p : product) (cs : list product) :
  forall rs,
    evaluate_all p cs = Ok rs ->
    Forall2 (fun c r => evaluate p c = Ok r) cs rs.
Proof.
  induction cs as [|c cs IH]; simpl; intros rs H.
  - inversion H; subst. constructor.
  - destruct (evaluate p c) as [r|] eqn:Er; simpl in H; [|discriminate].
    destruct (evaluate_all p cs) as [rs'|]; simpl in H; [|discriminate].
    inversion H; subst. constructor; [assumption | apply IH; reflexivity].
Qed.

(** X21.  For products whose nutrient values are not negative, every
    substitution score lies between 6 and 100: each of the four
    components stays within its share (35, 30, 20 and 15 points), and
    the category component is never below 6. *)
Theorem substitution_score_range :
  forall (p : product) (candidate_pool : list product)
         (max_increase min_improvement : Q)
         (results : list SubstitutionResult),
    nonnegative_nutrients p ->
    Forall nonnegative_nutrients candidate_pool ->
    find_substitutes p candidate_pool max_increase min_improvement
    = Ok results ->
    Forall (fun r => 6 <= score r <= 100) results.
Proof.
  intros p pool a b results Hp Hpool H. unfold find_substitutes in H.
  destruct (evaluate_all p (filter (passes a b p) pool)) as [scored|] eqn:E;
    simpl in H; [|discriminate].
  inversion H; subst; clear H. apply sort_Forall.
  apply evaluate_all_Forall2 in E.
  assert (Hcs : Forall nonnegative_nutrients (filter (passes a b p) pool)).
  { rewrite Forall_forall in *. intros c Hc. apply filter_In in Hc.
    apply Hpool. tauto. }
  induction E as [|c r cs rs Hr Hrest IH]; [constructor|].
  inversion Hcs; subst. constructor; [|apply IH; assumption].
  destruct (evaluate_inv p c r Hr) as (pct & n & _ & Hn & ->).
  apply nutritional_similarity_range in Hn; [|assumption..].
  pose proof (clamp_bounds 0 100 (improvement p c) ltac:(lra)).
  pose proof (clamp_bounds 0 100 (pct * 5) ltac:(lra)).
  pose proof (category_match_range (category p) (category c)).
  unfold in_percent in Hn. lra.
Qed.

(** X22.  A price cut of 20% or more earns the full 30 points of the
    savings component, and a candidate that is not cheaper earns none:
    in both cases the score is the other three components plus that. *)
Theorem savings_component_saturates :
  forall (p c : product) (r : SubstitutionResult),
    0 < price p ->
    evaluate p c = Ok r ->
    exists nutrition,
      nutritional_similarity p c = Ok nutrition
      /\ (price c <= 0.8 * price p ->
          score r
          == clamp 0 100 (improvement p c) * 0.35 + 30
             + category_match (category p) (category c) * 0.20
             + nutrition * 0.15)
      /\ (price p <= price c ->
          score r
          == clamp 0 100 (improvement p c) * 0.35 + 0
             + category_match (category p) (category c) * 0.20
             + nutrition * 0.15).
Proof.
  intros p c r Hp Hr.
  destruct (evaluate_inv p c r Hr) as (pct & n & Hpct & Hn & ->).
  exists n. split; [exact Hn|].
  unfold savings_percent in Hpct.
  rewrite checked_div_ok in Hpct by lra. simpl in Hpct.
  inversion Hpct; subst pct; clear Hpct.
  set (cut := (price p - price c) / price p).
  split; intros Hc.
  - assert (Hcut : 0.2 <= cut)
      by (apply Qle_shift_div_l; [assumption | lra]).
    assert (Hclamp : clamp 0 100 (cut * 100 * 5) == 100).
    { unfold clamp. rewrite Q.max_r by lra. apply Q.min_l. lra. }
    rewrite Hclamp. lra.
  - assert (Hcut : cut <= 0)
      by (apply Qle_shift_div_r; [assumption | lra]).
    assert (Hclamp : clamp 0 100 (cut * 100 * 5) == 0).
    { unfold clamp. rewrite Q.max_l by lra. apply Q.min_r. lra. }
    rewrite Hclamp. lra.
Qed.

Lemma metric_similarity_total (v1 v2 : option Q) :
  positive v1 -> positive v2 ->
  exists l, metric_similarity v1 v2 = Ok l
            /\ (both_present v1 v2 = true -> l <> []).
Proof.
  destruct v1 as [a|]; destruct v2 as [b|]; cbn [positive both_present];
    intros Ha Hb; unfold metric_similarity;
    try (exists []; split; [reflexivity | discriminate]).
  rewrite checked_div_ok.
  - cbn [bind]. eexists. split; [reflexivity | discriminate].
  - destruct (Q.max_spec a b) as [[_ Hm]|[_ Hm]]; rewrite Hm; lra.
Qed.

Lemma evaluate_total (p c : product) :
  ~ price p == 0 -> positive_nutrients p -> positive_nutrients c ->
  comparable p c ->
  exists r, evaluate p c = Ok r.
Proof.
  intros Hp (P1 & P2 & P3 & P4) (C1 & C2 & C3 & C4) Hcmp.
  unfold evaluate, savings_percent, nutritional_similarity.
  rewrite checked_div_ok by assumption. cbn [bind].
  destruct (metric_similarity_total _ _ P1 C1) as (s1 & -> & N1).
  destruct (metric_similarity_total _ _ P2 C2) as (s2 & -> & N2).
  destruct (metric_similarity_total _ _ P3 C3) as (s3 & -> & N3).
  destruct (metric_similarity_total _ _ P4 C4) as (s4 & -> & N4).
  cbn [bind].
  assert (Hne : s1 ++ s2 ++ s3 ++ s4 <> []).
  { unfold comparable in Hcmp.
    repeat (apply orb_true_iff in Hcmp as [Hcmp|Hcmp]).
    - apply N1 in Hcmp. destruct s1; [contradiction | discriminate].
    - apply N2 in Hcmp. destruct s1; [|discriminate].
      destruct s2; [contradiction | discriminate].
    - apply N3 in Hcmp. destruct s1; [|discriminate].
      destruct s2; [|discriminate].
      destruct s3; [contradiction | discriminate].
    - apply N4 in Hcmp. destruct s1; [|discriminate].
      destruct s2; [|discriminate]. destruct s3; [|discriminate].
      destruct s4; [contradiction | discriminate]. }
  rewrite checked_div_ok; [cbn [bind]; eauto|].
  destruct (s1 ++ s2 ++ s3 ++ s4) as [|x l]; [contradiction|].
  intros H. unfold Qeq in H. simpl in H. lia.
Qed.

(** X24.  For a product with a non-zero price, when the nutrient values
    of the product and of the pool are positive where present and every
    candidate shares at least one nutrient with the product, the search
    never fails: neither the division by the original price, nor the
    divisions by the larger nutrient value, nor the division by the
    number of nutrients compared meets a zero divisor. *)
Theorem find_substitutes_returns :
  forall (p : product) (candidate_pool : list product)
         (max_increase min_improvement : Q),
    ~ price p == 0 ->
    positive_nutrients p ->
    Forall (fun c => positive_nutrients c /\ comparable p c)
           candidate_pool ->
    exists results,
      find_substitutes p candidate_pool max_increase min_improvement
      = Ok results.
Proof.
  intros p pool a b Hp Hn Hpool. unfold find_substitutes.
  assert (Hcs : Forall (fun c => positive_nutrients c /\ comparable p c)
                       (filter (passes a b p) pool)).
  { rewrite Forall_forall in *. intros c Hc. apply filter_In in Hc.
    apply Hpool. tauto. }
  assert (Hall : exists scored,
             evaluate_all p (filter (passes a b p) pool) = Ok scored).
  { induction Hcs as [|c cs [Hc Hcmp] Hrest IH]; simpl; [eauto|].
    destruct (evaluate_total p c Hp Hn Hc Hcmp) as [r ->].
    destruct IH as [rs ->]. simpl. eauto. }
  destruct Hall as [scored ->]. simpl. eauto.
Qed.

(** *** Substitution in batch *)

Lemma insert_by_impact_Forall (P : SubstitutionResult -> Prop)
      (x : SubstitutionResult) (l : list SubstitutionResult) :
  P x -> Forall P l -> Forall P (insert_by_impact x l).
Proof.
  intros Hx. induction 1 as [|y l Hy Hl IH]; simpl.
  - repeat constructor. assumption.
  - destruct (Qlt_bool _ _); repeat constructor; assumption.
Qed.

Lemma insert_by_impact_length (x : SubstitutionResult)
      (l : list SubstitutionResult) :
  List.length (insert_by_impact x l) = S (List.length l).
Proof.
  induction l as [|y l IH]; simpl; [reflexivity|].
  destruct (Qlt_bool _ _); simpl; [rewrite IH|]; reflexivity.
Qed.

Lemma insert_by_impact_sorted (x : SubstitutionResult)
      (l : list SubstitutionResult) :
  StronglySorted more_impact l ->
  StronglySorted more_impact (insert_by_impact x l).
Proof.
  induction 1 as [|y l Hsorted IH Hy]; simpl.
  - repeat constructor.
  - destruct (Qlt_bool (combined_impact x) (combined_impact y)) eqn:E.
    + apply Qlt_bool_iff in E. constructor; [assumption|].
      apply insert_by_impact_Forall; [unfold more_impact; lra | assumption].
    + apply Qlt_bool_false in E. constructor.
      * constructor; assumption.
      * constructor; [exact E|].
        eapply Forall_impl; [|exact Hy].
        unfold more_impact. intros z Hz. lra.
Qed.

Lemma find_substitutes_original (p : product) (pool : list product)
      (a b : Q) (rs : list SubstitutionResult) :
  find_substitutes p pool a b = Ok rs ->
  Forall (fun r => original r = p) rs.
Proof.
  unfold find_substitutes. intros H.
  destruct (evaluate_all p (filter (passes a b p) pool)) as [scored|] eqn:E;
    simpl in H; [|discriminate].
  inversion H; subst. apply sort_Forall.
  eapply Forall_impl; [|apply (evaluate_all_fields _ _ _ E)].
  simpl. tauto.
Qed.

Lemma insert_by_impact_permutation (x : SubstitutionResult)
      (l : list SubstitutionResult) :
  Permutation (insert_by_impact x l) (x :: l).
Proof.
  induction l as [|y l IH]; simpl; [reflexivity|].
  destruct (Qlt_bool _ _); [|reflexivity].
  transitivity (y :: x :: l); [constructor; assumption | constructor].
Qed.

Lemma sort_by_impact_permutation (l : list SubstitutionResult) :
  Permutation (fold_right insert_by_impact [] l) l.
Proof.
  induction l as [|x l IH]; simpl; [constructor|].
  rewrite insert_by_impact_permutation. constructor. assumption.
Qed.

(** The loop keeps one result for each product that has a substitute,
    in the order of the products. *)
Lemma best_substitutes_originals (pool : list product)
      (products : list product) :
  forall l,
    best_substitutes products pool = Ok l ->
    map original l = filter (has_substitute pool) products.
Proof.
  induction products as [|p rest IH]; simpl; intros l H.
  - inversion H; subst. reflexivity.
  - unfold has_substitute at 1.
    destruct (find_substitutes p pool max_price_increase
                min_sustainability_improvement) as [subs|] eqn:E;
      simpl in H; [|discriminate].
    destruct (best_substitutes rest pool) as [others|]; simpl in H;
      [|discriminate].
    specialize (IH others eq_refl).
    inversion H; subst; clear H.
    destruct subs as [|best subs']; [assumption|].
    pose proof (find_substitutes_original _ _ _ _ _ E) as Ho.
    apply Forall_inv in Ho. simpl. rewrite Ho, IH. reflexivity.
Qed.

Lemma best_substitutes_spec (pool : list product) (products : list product) :
  forall l,
    best_substitutes products pool = Ok l ->
    (List.length l <= List.length products)%nat
    /\ Forall (fun r => In (original r) products /\ is_best_of pool r) l.
Proof.
  induction products as [|p rest IH]; simpl; intros l H.
  - inversion H; subst. split; [reflexivity | constructor].
  - destruct (find_substitutes p pool max_price_increase
                min_sustainability_improvement) as [subs|] eqn:E;
      simpl in H; [|discriminate].
    destruct (best_substitutes rest pool) as [others|]; simpl in H;
      [|discriminate].
    destruct (IH others eq_refl) as [Hlen Hall].
    assert (Hothers : Forall (fun r => In (original r) (p :: rest)
                                       /\ is_best_of pool r) others).
    { eapply Forall_impl; [|exact Hall]. simpl. intros r [Hin Hb].
      split; [right|]; assumption. }
    inversion H; subst; clear H.
    destruct subs as [|best subs'].
    + split; [simpl; lia | assumption].
    + split; [simpl; lia|]. constructor; [|assumption].
      pose proof (find_substitutes_original _ _ _ _ _ E) as Ho.
      apply Forall_inv in Ho.
      split; [left; symmetry; exact Ho|].
      exists subs'. rewrite Ho. exact E.
Qed.

(** X25.  [batch_substitute] proposes exactly one substitute for each
    product of the batch that has any, and none for the others: the
    products of the substitutions are, up to order, the products of the
    batch for which the search finds something.  Each substitution is
    the top-ranked substitute of its product, and they are listed by
    combined impact, highest first. *)
Theorem batch_is_best_per_product :
  forall (products candidate_pool : list product)
         (substitutions : list SubstitutionResult),
    batch_substitute products candidate_pool = Ok substitutions ->
    (List.length substitutions <= List.length products)%nat
    /\ Permutation (map original substitutions)
                   (filter (has_substitute candidate_pool) products)
    /\ Forall (fun r => In (original r) products
                        /\ is_best_of candidate_pool r) substitutions
    /\ StronglySorted more_impact substitutions.
Proof.
  intros products pool substitutions H. unfold batch_substitute in H.
  destruct (best_substitutes products pool) as [l|] eqn:E; simpl in H;
    [|discriminate].
  inversion H; subst; clear H.
  destruct (best_substitutes_spec pool products l E) as [Hlen Hall].
  pose proof (best_substitutes_originals pool products l E) as Horig.
  clear E. split; [|split; [|split]].
  - rewrite (Permutation_length (sort_by_impact_permutation l)).
    exact Hlen.
  - rewrite <- Horig. apply Permutation_map, sort_by_impact_permutation.
  - clear Horig. induction Hall as [|x l Hx Hl IH]; simpl; [constructor|].
    apply insert_by_impact_Forall; [assumption|].
    apply IH. simpl in Hlen. lia.
  - clear. induction l as [|x l IH]; simpl; [constructor|].
    apply insert_by_impact_sorted. assumption.
Qed.

Lemma sample_yogurt_nutrients :
  positive_nutrients sample_yogurt /\ nonnegative_nutrients sample_yogurt.
Proof.
  unfold positive_nutrients, nonnegative_nutrients, sample_yogurt; simpl.
  repeat split; try exact I; lra.
Qed.

Lemma sample_pool_nutrients :
  Forall positive_nutrients sample_pool
  /\ Forall nonnegative_nutrients sample_pool.
Proof.
  unfold sample_pool, positive_nutrients, nonnegative_nutrients.
  split; repeat constructor; simpl; try exact I; lra.
Qed.

Lemma substitution_score_range_witness :
  exists results,
    find_substitutes sample_yogurt sample_pool 0.1 5 = Ok results
    /\ Forall (fun r => 6 <= score r <= 100) results.
Proof.
  eexists. split; [vm_compute; reflexivity|].
  eapply (substitution_score_range sample_yogurt sample_pool 0.1 5).
  - apply sample_yogurt_nutrients.
  - apply sample_pool_nutrients.
  - vm_compute. reflexivity.
Defined.

Lemma savings_component_saturates_witness :
  exists r nutrition,
    evaluate sample_yogurt (nth 2 sample_pool sample_yogurt) = Ok r
    /\ nutritional_similarity sample_yogurt (nth 2 sample_pool sample_yogurt)
       = Ok nutrition.
Proof.
  destruct (evaluate sample_yogurt (nth 2 sample_pool sample_yogurt))
    as [r|e] eqn:E; [|vm_compute in E; discriminate].
  destruct (savings_component_saturates
              sample_yogurt (nth 2 sample_pool sample_yogurt) r
              ltac:(reflexivity) E)
    as (nutrition & Hn & _).
  exists r, nutrition. split; [reflexivity | exact Hn].
Defined.

Lemma find_substitutes_returns_witness :
  exists results,
    find_substitutes sample_yogurt sample_dairy_pool 0.1 5 = Ok results.
Proof.
  apply (find_substitutes_returns sample_yogurt sample_dairy_pool 0.1 5).
  - vm_compute. discriminate.
  - apply sample_yogurt_nutrients.
  - unfold sample_dairy_pool, positive_nutrients, comparable. simpl.
    repeat constructor; try exact I; lra.
Defined.

Lemma batch_is_best_per_product_witness :
  exists substitutions,
    batch_substitute [sample_yogurt] sample_pool = Ok substitutions
    /\ (List.length substitutions <= 1)%nat
    /\ Permutation (map original substitutions)
                   (filter (has_substitute sample_pool) [sample_yogurt])
    /\ StronglySorted more_impact substitutions.
Proof.
  eexists. split; [vm_compute; reflexivity|].
  assert (H := batch_is_best_per_product [sample_yogurt] sample_pool).
  split; [|split]; eapply H; vm_compute; reflexivity.
Defined.

End SubstitutionProofs.

(* ------------------------------------------------------------------ *)
(** ** The route optimiser *)
(* ------------------------------------------------------------------ *)

Module RouteProofs.

Import Route.

Lemma remove_once (x : nat) (l : list nat) :
  NoDup l -> In x l -> Permutation l (x :: remove Nat.eq_dec x l).
Proof.
  induction 1 as [|y l Hnotin Hnd IH]; intros Hin; [destruct Hin|].
  simpl. destruct (Nat.eq_dec x y) as [->|Hne].
  - rewrite notin_remove by assumption. reflexivity.
  - destruct Hin as [->|Hin]; [congruence|].
    transitivity (y :: x :: remove Nat.eq_dec x l).
    + constructor. apply IH. assumption.
    + constructor.
Qed.

Lemma remove_nodup (x : nat) (l : list nat) :
  NoDup l -> NoDup (remove Nat.eq_dec x l).
Proof.
  induction 1 as [|y l Hnotin Hnd IH]; simpl; [constructor|].
  destruct (Nat.eq_dec x y); [assumption|].
  constructor; [|assumption].
  intros Hin. apply in_remove in Hin. tauto.
Qed.

Lemma reverse_segment_permutation (route : list nat) (i j : nat) :
  (i <= j)%nat -> Permutation (reverse_segment route i j) route.
Proof.
  intros Hij. unfold reverse_segment.
  transitivity (firstn i route
                ++ firstn (j + 1 - i) (skipn i route)
                ++ skipn (j + 1) route).
  - apply Permutation_app_head, Permutation_app_tail.
    symmetry. apply Permutation_rev.
  - replace (skipn (j + 1) route)
      with (skipn (j + 1 - i) (skipn i route))
      by (rewrite skipn_skipn; f_equal; lia).
    rewrite !firstn_skipn. reflexivity.
Qed.

Lemma segments_ordered (n i j : nat) :
  In (i, j) (segments n) -> (1 <= i < j)%nat /\ (j < n)%nat.
Proof.
  unfold segments. rewrite in_flat_map. intros [k [Hk Hin]].
  apply in_map_iff in Hin as [j' [Heq Hj]]. inversion Heq; subst.
  apply in_seq in Hk, Hj. lia.
Qed.

Lemma stores_in_range (before rest : list store) :
  stores_in (before ++ rest) (seq (List.length before) (List.length rest))
  = rest.
Proof.
  revert before. induction rest as [|s rest IH]; intros before;
    [reflexivity|].
  cbn [List.length seq]. unfold stores_in. cbn [flat_map].
  rewrite nth_error_app2 by lia. rewrite Nat.sub_diag. cbn [nth_error app].
  f_equal.
  specialize (IH (before ++ [s])).
  rewrite <- app_assoc, length_app, Nat.add_1_r in IH. exact IH.
Qed.

Lemma stores_in_all (stores : list store) :
  stores_in stores (seq 0 (List.length stores)) = stores.
Proof. exact (stores_in_range [] stores). Qed.

Section WithDistance.

Variable haversine : Q -> Q -> Q -> Q -> Q.
Variable stores : list store.
Variable start_location : Q * Q.

Lemma argmin_in (key : nat -> Q) (rest : list nat) :
  forall best, In (argmin key best rest) (best :: rest).
Proof.
  induction rest as [|i rest IH]; intros best; simpl; [auto|].
  destruct (Qlt_le_dec (key i) (key best)).
  - right. apply IH.
  - destruct (IH best) as [H|H]; [left | right; right]; assumption.
Qed.

(** Each round moves one store from the unvisited ones to the route. *)
Lemma visit_permutation (rounds : nat) :
  forall current unvisited route total,
    NoDup unvisited ->
    (List.length unvisited <= rounds)%nat ->
    Permutation
      (fst (fst (visit haversine stores start_location rounds current
                       unvisited route total)))
      (route ++ unvisited).
Proof.
  induction rounds as [|rounds IH]; intros current unvisited route total
    Hnd Hlen.
  - destruct unvisited; [|simpl in Hlen; lia].
    simpl. rewrite app_nil_r. reflexivity.
  - destruct unvisited as [|first others].
    + simpl. rewrite app_nil_r. reflexivity.
    + cbn [visit].
      set (nearest := argmin _ first others).
      assert (Hin : In nearest (first :: others)) by apply argmin_in.
      rewrite IH.
      * rewrite <- app_assoc. apply Permutation_app_head. simpl.
        symmetry. apply remove_once; assumption.
      * apply remove_nodup. assumption.
      * pose proof (remove_length_lt Nat.eq_dec _ _ Hin) as Hlt.
        lia.
Qed.

Lemma nearest_neighbor_permutation :
  Permutation (fst (nearest_neighbor haversine stores start_location))
              (seq 0 (List.length stores)).
Proof.
  unfold nearest_neighbor.
  pose proof (visit_permutation (List.length stores) start_location
                (seq 0 (List.length stores)) [] 0%Q
                (seq_NoDup _ _)) as H.
  rewrite length_seq in H. specialize (H (le_n _)).
  destruct (visit _ _ _ _ _ _ _ _) as [[route total] current].
  exact H.
Qed.

Lemma pass_permutation (route : list nat) (pairs : list (nat * nat)) :
  (forall i j, In (i, j) pairs -> (i <= j)%nat) ->
  forall st,
    Permutation (fst (fst st)) route ->
    Permutation
      (fst (fst (fold_left (try_segment haversine stores start_location
                                        route) pairs st)))
      route.
Proof.
  induction pairs as [|[i j] pairs IH]; intros Hpairs st Hst;
    [assumption|].
  cbn [fold_left]. apply IH.
  - intros i' j' Hin. apply Hpairs. right. assumption.
  - unfold try_segment. destruct st as [[best_route best_distance] improved].
    destruct (Qlt_le_dec _ _); [|assumption].
    cbn [fst snd]. apply reverse_segment_permutation.
    apply Hpairs. left. reflexivity.
Qed.

Lemma two_opt_loop_permutation (passes_left : nat) :
  forall route best_route best_distance,
    Permutation best_route route ->
    Permutation
      (fst (two_opt_loop haversine stores start_location passes_left route
                    best_route best_distance))
      route.
Proof.
  induction passes_left as [|n IH]; intros route best_route best_distance Hp;
    [assumption|].
  cbn [two_opt_loop].
  pose proof (pass_permutation route (segments (List.length route))) as Hpass.
  specialize (Hpass (fun i j Hin =>
                       Nat.lt_le_incl _ _
                         (proj2 (proj1 (segments_ordered _ _ _ Hin))))).
  specialize (Hpass (best_route, best_distance, false) Hp).
  unfold pass.
  destruct (fold_left _ _ _) as [[best' distance'] improved].
  cbn [fst] in Hpass.
  destruct improved; [|assumption].
  transitivity best'; [|assumption].
  apply IH. reflexivity.
Qed.

Lemma two_opt_permutation (route : list nat) :
  Permutation (fst (two_opt haversine stores start_location route)) route.
Proof. unfold two_opt. apply two_opt_loop_permutation. reflexivity. Qed.

(** C5.  The route returned by [optimize_route] visits exactly the input
    stores.  The order built by nearest neighbour is a permutation of the
    store indices; so is the order after 2-opt, which has no duplicate;
    and the stores listed in the result are a permutation of the input
    stores. *)
Theorem route_visits_each_store_once :
  let result := optimize_route haversine stores start_location in
  Permutation (fst (nearest_neighbor haversine stores start_location))
              (seq 0 (List.length stores))
  /\ Permutation (order result) (seq 0 (List.length stores))
  /\ NoDup (order result)
  /\ Permutation (route result) stores.
Proof.
  intros result.
  assert (Horder : Permutation (order result) (seq 0 (List.length stores))).
  { subst result. unfold optimize_route.
    pose proof nearest_neighbor_permutation as Hnn.
    destruct (nearest_neighbor _ _ _) as [initial d0].
    pose proof (two_opt_permutation initial) as Hopt.
    destruct (two_opt _ _ _ _) as [best_route best_distance].
    destruct (estimate_time _ _) as [[t1 t2] t3].
    cbn [order fst] in *. transitivity initial; assumption. }
  split; [apply nearest_neighbor_permutation|].
  split; [exact Horder|].
  split.
  - eapply Permutation_NoDup; [symmetry; exact Horder | apply seq_NoDup].
  - assert (Hroute : route result = stores_in stores (order result)).
    { subst result. unfold optimize_route.
      destruct (nearest_neighbor _ _ _) as [initial d0].
      destruct (two_opt _ _ _ _) as [best_route best_distance].
      destruct (estimate_time _ _) as [[t1 t2] t3]. reflexivity. }
    rewrite Hroute. rewrite <- (stores_in_all stores) at 2.
    unfold stores_in. apply Permutation_flat_map. exact Horder.
Qed.

(** *** Distances and the greedy choice *)

Local Open Scope Q_scope.

Abbreviation dist := (distance haversine).
Abbreviation loc := (location stores start_location).

(** [argmin] returns an element of least key, and the first such. *)
Lemma argmin_least (key : nat -> Q) (rest : list nat) :
  forall best,
    (forall i, In i (best :: rest) -> key (argmin key best rest) <= key i).
Proof.
  induction rest as [|x rest IH]; intros best i Hin; simpl in *.
  - destruct Hin as [<-|[]]. lra.
  - destruct (Qlt_le_dec (key x) (key best)) as [Hlt|Hge].
    + destruct Hin as [<-|[<-|Hin]].
      * pose proof (IH x x (or_introl eq_refl)). lra.
      * apply IH. left. reflexivity.
      * apply IH. right. assumption.
    + destruct Hin as [<-|[<-|Hin]].
      * apply IH. left. reflexivity.
      * pose proof (IH best best (or_introl eq_refl)). lra.
      * apply IH. right. assumption.
Qed.

Lemma argmin_first (key : nat -> Q) (rest : list nat) :
  forall best,
    StronglySorted lt (best :: rest) ->
    forall j, In j (best :: rest) -> (j < argmin key best rest)%nat ->
              key (argmin key best rest) < key j.
Proof.
  induction rest as [|x rest IH]; intros best Hsorted j Hin Hlt.
  - simpl in *. destruct Hin as [<-|[]]. lia.
  - inversion Hsorted as [|? ? Htail Hbest]; subst.
    inversion Htail as [|? ? Htail' Hx]; subst.
    inversion Hbest as [|? ? Hbx Hbrest]; subst.
    simpl in Hlt |- *.
    destruct (Qlt_le_dec (key x) (key best)) as [Hk|Hk].
    + destruct Hin as [<-|Hin].
      * pose proof (argmin_least key rest x x (or_introl eq_refl)). lra.
      * apply IH; assumption.
    + assert (Hsorted' : StronglySorted lt (best :: rest))
        by (constructor; assumption).
      destruct Hin as [<-|[<-|Hin]].
      * apply IH; [assumption | left; reflexivity | assumption].
      * destruct (argmin_in key rest best) as [Heq|Hr].
        -- rewrite <- Heq in Hlt. lia.
        -- assert (Hb : (best < argmin key best rest)%nat)
             by (rewrite Forall_forall in Hbrest; apply Hbrest; assumption).
           pose proof (IH best Hsorted' best (or_introl eq_refl) Hb). lra.
      * apply IH; [assumption | right; assumption | assumption].
Qed.

Lemma remove_sorted (x : nat) (l : list nat) :
  StronglySorted lt l -> StronglySorted lt (remove Nat.eq_dec x l).
Proof.
  induction 1 as [|y l Hs IH Hy]; simpl; [constructor|].
  destruct (Nat.eq_dec x y); [assumption|].
  constructor; [assumption|].
  rewrite Forall_forall in *. intros z Hz.
  apply in_remove in Hz. apply Hy. tauto.
Qed.

Lemma sorted_nodup (l : list nat) : StronglySorted lt l -> NoDup l.
Proof.
  induction 1 as [|y l Hs IH Hy]; constructor; [|assumption].
  intros Hin. rewrite Forall_forall in Hy. specialize (Hy y Hin). lia.
Qed.

Lemma seq_sorted (len : nat) : forall start, StronglySorted lt (seq start len).
Proof.
  induction len as [|len IH]; intros start; simpl; constructor.
  - apply IH.
  - apply Forall_forall. intros x Hx. apply in_seq in Hx. lia.
Qed.

(** What the loop of nearest neighbour returns: the route so far, then
    the unvisited stores in greedy order, with the distance of that walk
    added to the total. *)
Lemma visit_greedy (rounds : nat) :
  forall current unvisited route total,
    StronglySorted lt unvisited ->
    (List.length unvisited <= rounds)%nat ->
    let result :=
      visit haversine stores start_location rounds current unvisited
            route total in
    exists tail,
      fst (fst result) = route ++ tail
      /\ Permutation tail unvisited
      /\ greedy haversine stores start_location current tail
      /\ snd (fst result) + dist (snd result) start_location
         == total + path_length haversine stores start_location
                               current tail.
Proof.
  induction rounds as [|rounds IH]; intros current unvisited route total
    Hsorted Hlen.
  - destruct unvisited; [|simpl in Hlen; lia].
    exists []. simpl. rewrite app_nil_r. repeat split; reflexivity.
  - destruct unvisited as [|first others].
    + exists []. simpl. rewrite app_nil_r. repeat split; reflexivity.
    + cbn [visit]. cbv zeta.
      set (key := fun i => dist current (loc i)).
      set (nearest := argmin key first others).
      assert (Hin : In nearest (first :: others)) by apply argmin_in.
      pose proof (remove_length_lt Nat.eq_dec _ _ Hin) as Hshorter.
      destruct (IH (loc nearest)
                   (remove Nat.eq_dec nearest (first :: others))
                   (route ++ [nearest])
                   (total + dist current (loc nearest))
                   (remove_sorted nearest _ Hsorted)
                   ltac:(lia))
        as (tail & Hroute & Hperm & Hgreedy & Hdist).
      exists (nearest :: tail). split; [|split; [|split]].
      * rewrite Hroute, <- app_assoc. reflexivity.
      * rewrite Hperm. symmetry.
        apply remove_once; [apply sorted_nodup|]; assumption.
      * cbn [greedy]. split; [|exact Hgreedy].
        intros j Hj.
        assert (Hj' : In j (first :: others)).
        { eapply Permutation_in in Hj; [|exact Hperm].
          apply in_remove in Hj. tauto. }
        split.
        -- apply (argmin_least key others first j Hj').
        -- intros Hlt.
           apply (argmin_first key others first Hsorted j Hj' Hlt).
      * rewrite Hdist. cbn [path_length]. ring.
Qed.

(** X9.  Nearest neighbour is greedy: each stop of its route is, among
    the stores not yet visited, one nearest to the position before it,
    and of several equally near stores the one listed first. *)
Theorem nearest_neighbor_is_greedy :
  greedy haversine stores start_location start_location
         (fst (nearest_neighbor haversine stores start_location)).
Proof.
  unfold nearest_neighbor.
  destruct (visit_greedy (List.length stores) start_location
              (seq 0 (List.length stores)) [] 0
              (seq_sorted _ 0) ltac:(rewrite length_seq; lia))
    as (tail & Hroute & _ & Hgreedy & _).
  destruct (visit _ _ _ _ _ _ _ _) as [[route total] current].
  simpl in *. subst route. exact Hgreedy.
Qed.

Lemma nearest_neighbor_round_trip :
  snd (nearest_neighbor haversine stores start_location)
  == calculate_distance haversine stores start_location
       (fst (nearest_neighbor haversine stores start_location)).
Proof.
  unfold nearest_neighbor, calculate_distance.
  destruct (visit_greedy (List.length stores) start_location
              (seq 0 (List.length stores)) [] 0
              (seq_sorted _ 0) ltac:(rewrite length_seq; lia))
    as (tail & Hroute & _ & _ & Hdist).
  destruct (visit _ _ _ _ _ _ _ _) as [[route total] current].
  simpl in *. subst route. rewrite Hdist. ring.
Qed.

(** X10.  The distance that nearest neighbour reports is the length of
    the round trip along its route: from the start through the stores in
    order and back to the start. *)
Theorem nearest_neighbor_distance :
  snd (nearest_neighbor haversine stores start_location)
  == calculate_distance haversine stores start_location
       (fst (nearest_neighbor haversine stores start_location)).
Proof. exact nearest_neighbor_round_trip. Qed.

(** *** What 2-opt keeps *)

Abbreviation length_of := (calculate_distance haversine stores start_location).
Abbreviation try_on := (try_segment haversine stores start_location).

Lemma pass_invariant (Inv : list nat * Q * bool -> Prop) (route : list nat)
      (pairs : list (nat * nat)) :
  (forall st i j, In (i, j) pairs -> Inv st -> Inv (try_on route st (i, j))) ->
  forall st, Inv st -> Inv (fold_left (try_on route) pairs st).
Proof.
  induction pairs as [|[i j] pairs IH]; intros Hstep st Hst; [assumption|].
  cbn [fold_left]. apply IH.
  - intros st' i' j' Hin. apply Hstep. right. assumption.
  - apply Hstep; [left; reflexivity | assumption].
Qed.

(** An invariant of the loop relates the route a pass works on to the
    best route and distance so far; it must survive each trial of a
    segment, and the restart of a pass from the best route. *)
Lemma loop_invariant (Inv : list nat -> list nat -> Q -> Prop)
      (passes_left : nat) :
  (forall route st i j,
      In (i, j) (segments (List.length route)) ->
      Inv route (fst (fst st)) (snd (fst st)) ->
      Inv route (fst (fst (try_on route st (i, j))))
          (snd (fst (try_on route st (i, j))))) ->
  (forall route best d, Inv route best d -> Inv best best d) ->
  forall route best_route best_distance,
    Inv route best_route best_distance ->
    exists route',
      Inv route'
          (fst (two_opt_loop haversine stores start_location passes_left
                             route best_route best_distance))
          (snd (two_opt_loop haversine stores start_location passes_left
                             route best_route best_distance)).
Proof.
  intros Hstep Hrestart.
  induction passes_left as [|n IH]; intros route best_route best_distance
    Hinv; [exists route; assumption|].
  cbn [two_opt_loop]. unfold pass.
  pose proof (pass_invariant
                (fun st => Inv route (fst (fst st)) (snd (fst st)))
                route (segments (List.length route))
                (fun st i j Hin => Hstep route st i j Hin)
                (best_route, best_distance, false) Hinv) as Hpass.
  destruct (fold_left _ _ _) as [[best' distance'] improved].
  cbn [fst snd] in Hpass.
  destruct improved.
  - apply IH. eapply Hrestart. eassumption.
  - exists route. assumption.
Qed.

Lemma two_opt_distance (route : list nat) :
    snd (two_opt haversine stores start_location route)
    = length_of (fst (two_opt haversine stores start_location route))
    /\ snd (two_opt haversine stores start_location route)
       <= length_of route.
Proof.
  unfold two_opt.
  destruct (loop_invariant
              (fun _ r d => d = length_of r /\ d <= length_of route)
              max_iterations) with (route := route) (best_route := route)
              (best_distance := length_of route) as [_ H].
  - intros r [[best d] improved] i j _ [Heq Hle]. unfold try_segment.
    cbn [fst snd] in *.
    destruct (Qlt_le_dec _ d) as [Hlt|Hge]; cbn [fst snd].
    + split; [reflexivity | lra].
    + split; assumption.
  - intros r best d H. exact H.
  - split; [reflexivity | lra].
  - exact H.
Qed.

(** X11.  2-opt never makes a route longer: the distance it returns is
    the round-trip length of the route it returns, and it is at most the
    round-trip length of the route it was given. *)
Theorem two_opt_never_longer :
  forall route : list nat,
    snd (two_opt haversine stores start_location route)
    = length_of (fst (two_opt haversine stores start_location route))
    /\ snd (two_opt haversine stores start_location route)
       <= length_of route.
Proof. exact two_opt_distance. Qed.

Lemma reverse_segment_head (route : list nat) (i j : nat) :
  (1 <= i)%nat -> hd_error (reverse_segment route i j) = hd_error route.
Proof.
  intros Hi. unfold reverse_segment.
  destruct route as [|x route].
  - rewrite firstn_nil, skipn_nil, firstn_nil, skipn_nil. reflexivity.
  - destruct i as [|i]; [lia|]. reflexivity.
Qed.

Lemma two_opt_head (route : list nat) :
  hd_error (fst (two_opt haversine stores start_location route))
  = hd_error route.
Proof.
  unfold two_opt.
  destruct (loop_invariant
              (fun r best _ =>
                 hd_error r = hd_error route
                 /\ hd_error best = hd_error route)
              max_iterations) with (route := route) (best_route := route)
              (best_distance := length_of route) as [_ [_ H]].
  - intros r [[best d] improved] i j Hin [Hr Hbest]. unfold try_segment.
    cbn [fst snd] in *.
    destruct (Qlt_le_dec _ d); cbn [fst snd]; [|split; assumption].
    apply segments_ordered in Hin.
    rewrite reverse_segment_head by lia. split; assumption.
  - intros r best d [_ H]. split; assumption.
  - split; reflexivity.
  - exact H.
Qed.

(** X12.  2-opt never moves the first stop: the route it returns starts
    with the same store as the route it was given. *)
Theorem two_opt_keeps_first_stop :
  forall route : list nat,
    hd_error (fst (two_opt haversine stores start_location route))
    = hd_error route.
Proof. exact two_opt_head. Qed.

(** X13.  With at most two stops there is no segment to reverse: 2-opt
    returns the route as it is, with its round-trip length. *)
Theorem two_opt_short_route :
  forall route : list nat,
    (List.length route <= 2)%nat ->
    two_opt haversine stores start_location route
    = (route, length_of route).
Proof.
  intros route Hlen. unfold two_opt, max_iterations.
  cbn [two_opt_loop]. unfold pass.
  replace (segments (List.length route)) with (@nil (nat * nat)).
  - reflexivity.
  - unfold segments.
    replace (List.length route - 1 - 1)%nat with 0%nat by lia.
    reflexivity.
Qed.

(** X14.  The route that [optimize_route] returns is never longer than
    the nearest-neighbour route it started from; its distance is the
    round-trip length of the order it returns; it starts at the store
    nearest neighbour put first; and the estimated time is two minutes
    per kilometre plus fifteen minutes per store. *)
Theorem optimize_route_never_longer :
  let result := optimize_route haversine stores start_location in
  total_distance result
  <= snd (nearest_neighbor haversine stores start_location)
  /\ total_distance result = length_of (order result)
  /\ hd_error (order result)
     = hd_error (fst (nearest_neighbor haversine stores start_location))
  /\ estimated_time result
     == 2 * total_distance result
        + 15 * inject_Z (Z.of_nat (List.length stores))
  /\ estimated_time result = travel_time result + shopping_time result.
Proof.
  intros result. subst result. unfold optimize_route.
  pose proof nearest_neighbor_round_trip as Hnn.
  destruct (nearest_neighbor _ _ _) as [initial d0].
  pose proof (two_opt_distance initial) as [Heq Hle].
  pose proof (two_opt_head initial) as Hhd.
  destruct (two_opt _ _ _ _) as [best_route best_distance].
  unfold estimate_time. cbn [fst snd total_distance order estimated_time
                               travel_time shopping_time] in *.
  repeat split.
  - rewrite Hnn. exact Hle.
  - exact Heq.
  - exact Hhd.
  - field.
Qed.


End WithDistance.

Lemma two_opt_short_route_witness :
  two_opt grid_distance sample_stores (0, 0) [1%nat; 2%nat]
  = ([1%nat; 2%nat],
     calculate_distance grid_distance sample_stores (0, 0) [1%nat; 2%nat]).
Proof.
  apply (two_opt_short_route grid_distance sample_stores (0, 0)
           [1%nat; 2%nat]).
  simpl. lia.
Defined.

End RouteProofs.
